(** * Köln press-release feed client: fetch, parse, cache and ranked search

    A shallow embedding of [koeln_presse/utils.py], [koeln_presse/models.py]
    and [koeln_presse/rss_client.py], with the properties of the
    fetch-parse-cache pipeline and of the in-memory queries.

    Conventions of the embedding:
    - a Python [str] is a list of Unicode code points ([N]);
    - [bytes] is a list of [Byte.byte];
    - [time.time()] readings, sleep durations and [datetime] values are
      rationals ([Q]) and the arithmetic on them is exact: this is what the
      code computes in binary64 wherever the operands and the result are
      binary64 numbers ([binary64] below), as they are for the constants of
      the repository; a property about other float arguments assumes so;
    - an exception is a constructor of [exn], a call that may raise returns a
      [result];
    - the network, the clock and the [asyncio.sleep] calls live in a [world]
      that every effectful operation threads through. *)

From Stdlib Require Import ZArith NArith QArith Ascii String.
From Stdlib.Strings Require Import Byte.
From stdpp Require Import base option list sorting gmap.

Local Open Scope Z_scope.

(** * The program *)

(** ** Python strings *)

Definition char := N.
Definition str := list char.
Definition bytes := list byte.

(** A string literal of the source, as code points (ASCII literals only). *)
Definition lit (s : string) : str := N_of_ascii <$> list_ascii_of_string s.

(** [str.isspace] for one code point: the white-space table of CPython
    ([_PyUnicode_IsWhitespace]). *)
Definition is_space (c : char) : bool :=
  ((9 <=? c) && (c <=? 13) || (28 <=? c) && (c <=? 32)
   || (c =? 133) || (c =? 160) || (c =? 5760)
   || (8192 <=? c) && (c <=? 8202)
   || (c =? 8232) || (c =? 8233) || (c =? 8239) || (c =? 8287)
   || (c =? 12288))%N.

Fixpoint drop_while {A} (p : A -> bool) (l : list A) : list A :=
  match l with
  | [] => []
  | x :: l' => if p x then drop_while p l' else l
  end.

(** [s.lstrip()], [s.rstrip()], [s.strip()] without argument. *)
Definition lstrip (s : str) : str := drop_while is_space s.
Definition rstrip (s : str) : str := reverse (drop_while is_space (reverse s)).
Definition strip (s : str) : str := rstrip (lstrip s).

(** [s.lstrip("/")]. *)
Definition lstrip_slash (s : str) : str := drop_while (N.eqb 47) s.

(** [s.startswith(p)]. *)
Fixpoint startswith (s p : str) : bool :=
  match p, s with
  | [], _ => true
  | _ :: _, [] => false
  | c :: p', d :: s' => (c =? d)%N && startswith s' p'
  end.

(** [q in s] for strings: [q] occurs as a contiguous slice of [s]. *)
Fixpoint contains (s q : str) : bool :=
  startswith s q ||
  match s with
  | [] => false
  | _ :: s' => contains s' q
  end.

(** [a <= b] on strings, the order [sorted] uses: by code point, a proper
    prefix first. *)
Fixpoint str_leb (a b : str) : bool :=
  match a, b with
  | [], _ => true
  | _ :: _, [] => false
  | c :: a', d :: b' => (c <? d)%N || (c =? d)%N && str_leb a' b'
  end.
Definition str_le (a b : str) : Prop := str_leb a b = true.
#[global] Instance str_le_dec a b : Decision (str_le a b) :=
  decide (str_leb a b = true).

(** ** [str.encode('utf-8')] and [hashlib.sha1(..).hexdigest()] *)

Inductive exn :=
| RequestError (msg : string)          (* httpx.RequestError *)
| HTTPStatusError (status : Z)         (* httpx.HTTPStatusError *)
| OtherError (msg : string)            (* any other exception of the transport *)
| InvalidXML                           (* ValueError("Invalid RSS XML: ...") *)
| MissingChannel                       (* ValueError("RSS feed missing 'channel' element") *)
| NoValidItems                         (* ValueError("No valid press items found in RSS feed") *)
| ValidationError                      (* pydantic rejects a field of PressItem *)
| UnicodeEncodeError                   (* str.encode meets a surrogate *)
| NotBytes                             (* lxml is handed None instead of bytes *)
| RefreshFailed (cause : exn).         (* Exception("Failed to refresh cache: ...") *)

Inductive result (A : Type) :=
| Ok (a : A)
| Raise (e : exn).
Arguments Ok {A} a.
Arguments Raise {A} e.

Definition byte_of (n : N) : byte :=
  default x00 (Byte.of_N (n mod 256)%N).

(** UTF-8 of one code point; [None] where CPython raises
    [UnicodeEncodeError] (surrogates) or where the number is no code point. *)
Definition utf8_char (c : char) : option bytes :=
  (if c <? 128 then Some [byte_of c]
   else if c <? 2048 then
     Some [byte_of (192 + c / 64); byte_of (128 + c mod 64)]
   else if (55296 <=? c) && (c <=? 57343) then None
   else if c <? 65536 then
     Some [byte_of (224 + c / 4096); byte_of (128 + (c / 64) mod 64);
           byte_of (128 + c mod 64)]
   else if c <? 1114112 then
     Some [byte_of (240 + c / 262144); byte_of (128 + (c / 4096) mod 64);
           byte_of (128 + (c / 64) mod 64); byte_of (128 + c mod 64)]
   else None)%N.

Fixpoint utf8_encode (s : str) : option bytes :=
  match s with
  | [] => Some []
  | c :: s' =>
      match utf8_char c, utf8_encode s' with
      | Some b, Some bs => Some (b ++ bs)
      | _, _ => None
      end
  end.

Module SHA1.

Definition w32 (x : Z) : Z := x mod 2 ^ 32.
Definition rotl (n x : Z) : Z :=
  w32 (Z.lor (Z.shiftl x n) (Z.shiftr x (32 - n))).
Definition add32 (x y : Z) : Z := w32 (x + y).

(** Message padding: 0x80, zeros up to 56 mod 64, the bit length on 64
    bits, big-endian. *)
Definition be_bytes (n : nat) (x : Z) : list Z :=
  (fun i => Z.shiftr x (8 * Z.of_nat (n - 1 - i)) mod 256) <$> seq 0 n.

Definition pad (msg : list Z) : list Z :=
  let len := Z.of_nat (length msg) in
  msg ++ [128] ++ replicate (Z.to_nat ((55 - len) mod 64)) 0
      ++ be_bytes 8 ((8 * len) mod 2 ^ 64).

Fixpoint blocks (n : nat) (l : list Z) : list (list Z) :=
  match n with
  | O => []
  | S n' => take 64 l :: blocks n' (drop 64 l)
  end.

Definition be_word (bs : list Z) : Z :=
  fold_left (fun acc b => acc * 256 + b) bs 0.

Fixpoint words (n : nat) (l : list Z) : list Z :=
  match n with
  | O => []
  | S n' => be_word (take 4 l) :: words n' (drop 4 l)
  end.

(** The message schedule, most recent word first. *)
Fixpoint extend (n : nat) (rev_w : list Z) : list Z :=
  match n with
  | O => rev_w
  | S n' =>
      let x := Z.lxor (Z.lxor (nth 2 rev_w 0) (nth 7 rev_w 0))
                      (Z.lxor (nth 13 rev_w 0) (nth 15 rev_w 0)) in
      extend n' (rotl 1 x :: rev_w)
  end.

Definition schedule (block : list Z) : list Z :=
  reverse (extend 64 (reverse (words 16 block))).

Record regs := Regs { ra : Z; rb : Z; rc : Z; rd : Z; re : Z }.

Definition f_k (t : nat) (b c d : Z) : Z * Z :=
  if (t <? 20)%nat then
    (Z.lor (Z.land b c) (Z.land (Z.lxor b 4294967295) d), 1518500249)
  else if (t <? 40)%nat then
    (Z.lxor (Z.lxor b c) d, 1859775393)
  else if (t <? 60)%nat then
    (Z.lor (Z.lor (Z.land b c) (Z.land b d)) (Z.land c d), 2400959708)
  else
    (Z.lxor (Z.lxor b c) d, 3395469782).

Definition round (r : regs) (tw : nat * Z) : regs :=
  let '(t, w) := tw in
  let '(f, k) := f_k t (rb r) (rc r) (rd r) in
  let temp := add32 (add32 (add32 (add32 (rotl 5 (ra r)) f) (re r)) k) w in
  Regs temp (ra r) (rotl 30 (rb r)) (rc r) (rd r).

Definition compress (h : regs) (block : list Z) : regs :=
  let r := fold_left round (zip (seq 0 80) (schedule block)) h in
  Regs (add32 (ra h) (ra r)) (add32 (rb h) (rb r)) (add32 (rc h) (rc r))
       (add32 (rd h) (rd r)) (add32 (re h) (re r)).

Definition init : regs :=
  Regs 1732584193 4023233417 2562383102 271733878 3285377520.

Definition digest (msg : list Z) : list Z :=
  let p := pad msg in
  let h := fold_left compress (blocks (length p / 64) p) init in
  be_bytes 4 (ra h) ++ be_bytes 4 (rb h) ++ be_bytes 4 (rc h)
    ++ be_bytes 4 (rd h) ++ be_bytes 4 (re h).

Definition hex_digit (d : Z) : char :=
  Z.to_N (if d <? 10 then 48 + d else 87 + d).

Definition hex (bs : list Z) : str :=
  concat ((fun b => [hex_digit (b / 16); hex_digit (b mod 16)]) <$> bs).

(** [hashlib.sha1(data).hexdigest()]. *)
Definition hexdigest (data : bytes) : str :=
  hex (digest ((fun b => Z.of_N (Byte.to_N b)) <$> data)).

End SHA1.

(** ** The world outside the process

    [http k] is what the [k]-th GET of the feed URL does, [raise_for_status]
    included: it hands over the response body or raises. [clock k] is the
    [k]-th reading of the system clock, by [time.time()] or by
    [datetime.now()]. The counters say how many GETs and readings have been
    made; [slept] and [stdout] record the [asyncio.sleep] calls and the
    per-item errors printed, oldest first. *)

Definition datetime := Q.

Record world := World {
  http : nat -> result bytes;
  clock : nat -> Q;
  requests : nat;
  clock_reads : nat;
  slept : list Q;
  stdout : list exn;
}.

Definition M (A : Type) : Type := world -> result A * world.

#[global] Instance M_ret : MRet M := fun A a w => (Ok a, w).
#[global] Instance M_bind : MBind M := fun A B f m w =>
  match m w with
  | (Ok a, w') => f a w'
  | (Raise e, w') => (Raise e, w')
  end.

Definition raise {A} (e : exn) : M A := fun w => (Raise e, w).
Definition lift {A} (r : result A) : M A := fun w => (r, w).

(** [time.time()] and [datetime.now()]. *)
Definition read_clock : M Q := fun w =>
  (Ok (clock w (clock_reads w)),
   World (http w) (clock w) (requests w) (S (clock_reads w)) (slept w) (stdout w)).

(** [await asyncio.sleep(d)]. *)
Definition sleep (d : Q) : M unit := fun w =>
  (Ok tt,
   World (http w) (clock w) (requests w) (clock_reads w) (slept w ++ [d]) (stdout w)).

(** [print(f"Error parsing RSS item: {e}")]. *)
Definition print_error (e : exn) : M unit := fun w =>
  (Ok tt,
   World (http w) (clock w) (requests w) (clock_reads w) (slept w) (stdout w ++ [e])).

(** [client.get(url)] followed by [raise_for_status()] and [.content]. *)
Definition http_get : M bytes := fun w =>
  (http w (requests w),
   World (http w) (clock w) (S (requests w)) (clock_reads w) (slept w) (stdout w)).

(** ** XML trees, as lxml hands them over *)

#[warnings="-register-all"]
Inductive element := Element {
  tag : str;
  text : option str;
  children : list element;
}.

(** [e.findall(t)] and [e.find(t)] for a plain tag name: the direct children
    with that tag, in document order, and the first of them. *)
Definition findall (e : element) (t : str) : list element :=
  filter (fun c => tag c = t) (children e).
Definition find (e : element) (t : str) : option element :=
  head (findall e t).

(** ** Libraries and runtime the code calls into

    They are not part of the repository; the development is parametric in
    them. [etree_fromstring] is lxml's parser ([None] when it raises
    [XMLSyntaxError]), [any_url] pydantic's validation of the [AnyUrl] field
    ([None] when it raises [ValidationError], otherwise the URL it stores),
    [dateutil_parse] is [dateutil.parser.parse] ([None] when it raises) and
    [str_lower] is [str.lower].

    [dateutil.parser.parse(timestr)], called without [default], starts by
    reading [datetime.now()] and fills the fields that [timestr] leaves out
    (the whole date for "10:30:00", the year for "15 Oct") from that
    reading: its result is a function of the reading and of the text. The
    reading is the first argument of [dateutil_parse]; in the embedding
    [from_rss_item] takes it from the clock where it calls the parser. *)
Class Platform := {
  str_lower : str -> str;
  etree_fromstring : bytes -> option element;
  any_url : str -> option str;
  dateutil_parse : datetime -> str -> option datetime;
}.

(** ** utils.py *)

(** Truth value of a string: non-empty. *)
Definition truthy (s : str) : bool :=
  match s with [] => false | _ :: _ => true end.

Definition sha1_title_link (title link : str) : result str :=
  let combined := strip title ++ lit "|" ++ strip link in
  match utf8_encode combined with
  | Some data => Ok (SHA1.hexdigest data)
  | None => Raise UnicodeEncodeError
  end.

Definition generate_stable_id (title link : str) (guid : option str)
  : result str :=
  match guid with
  | Some g =>
      if truthy g then
        let guid_clean := strip g in
        if truthy guid_clean then Ok guid_clean
        else sha1_title_link title link
      else sha1_title_link title link
  | None => sha1_title_link title link
  end.

(** ** models.py *)

Record PressItem := mkPressItem {
  id : str;
  title : str;
  link : str;
  description : option str;
  published_at : datetime;
  categories : list str;
  raw_guid : option str;
  source : str;
}.

Definition BASE_URL : str := lit "https://www.stadt-koeln.de".
Definition CONTENT_ENCODED : str :=
  lit "{http://purl.org/rss/1.0/modules/content/}encoded".

(** [elem.text] when [elem is not None and elem.text], else nothing. *)
Definition text_of (elem : option element) : option str :=
  match elem with
  | Some e =>
      match text e with
      | Some t => if truthy t then Some t else None
      | None => None
      end
  | None => None
  end.

Definition resolve_link (base_url link_text : str) : str :=
  if startswith link_text (lit "/") then base_url ++ link_text
  else if negb (startswith link_text (lit "http")) then
    base_url ++ lit "/" ++ lstrip_slash link_text
  else link_text.

Section Models.
Context `{Platform}.

Definition extract_categories (item_element : element) : list str :=
  fold_left
    (fun categories cat_elem =>
       match text cat_elem with
       | Some t =>
           if truthy t && truthy (strip t) then
             let cat_text := strip t in
             if truthy cat_text then categories ++ [cat_text]
             else categories
           else categories
       | None => categories
       end)
    (findall item_element (lit "category")) [].

Definition from_rss_item (item_element : element) (base_url : str)
  : M PressItem :=
  let title :=
    match text_of (find item_element (lit "title")) with
    | Some t => strip t
    | None => lit "Unbekannter Titel"
    end in
  let link_text :=
    match text_of (find item_element (lit "link")) with
    | Some t => strip t
    | None => []
    end in
  let link_text := resolve_link base_url link_text in
  let description :=
    match text_of (find item_element CONTENT_ENCODED) with
    | Some t => Some t
    | None => text_of (find item_element (lit "description"))
    end in
  now ← read_clock;
  published_at ←
    match text_of (find item_element (lit "pubDate")) with
    | Some t =>
        today ← read_clock;
        mret (default now (dateutil_parse today (strip t)))
    | None => mret now
    end;
  let categories := extract_categories item_element in
  let raw_guid := strip <$> text_of (find item_element (lit "guid")) in
  item_id ← lift (generate_stable_id title link_text raw_guid);
  match any_url link_text with
  | Some url =>
      mret (mkPressItem item_id title url description published_at
                        categories raw_guid (lit "rss:stadt-koeln"))
  | None => raise ValidationError
  end.

End Models.

(** ** utils.py: the retry decorator *)

(** [range(n)]. *)
Definition range (n : Z) : list Z := Z.of_nat <$> seq 0 (Z.to_nat n).

Section Retry.
Context {A : Type}.
Variables (max_attempts : Z) (delay backoff_factor : Q)
          (exceptions : exn -> bool) (func : M A).

(** The [for attempt in range(max_attempts)] loop of the wrapper and the
    two statements after it; [attempts] is what is left of the range. A
    wrapper that falls off its end returns [None].

    [wait_time] is the exact product. The code computes it in binary64, as
    [delay * pow(backoff_factor, attempt)]: the two agree where the power
    and the product are binary64 numbers (see [exact_waits]), as for the
    1.0 and 2.0 of [fetch_raw]; elsewhere the code rounds, or raises
    [OverflowError], and a property that holds for every [delay] and
    [backoff_factor] is stated under [exact_waits]. *)
Fixpoint retry_loop (attempts : list Z) (last_exception : option exn)
  : M (option A) :=
  match attempts with
  | [] =>
      match last_exception with
      | Some e => raise e
      | None => mret None
      end
  | attempt :: rest => fun w =>
      match func w with
      | (Ok v, w') => (Ok (Some v), w')
      | (Raise e, w') =>
          if exceptions e then
            if attempt <? max_attempts - 1 then
              let wait_time := (delay * backoff_factor ^ attempt)%Q in
              (_ ← sleep wait_time; retry_loop rest (Some e)) w'
            else (Raise e, w')
          else (Raise e, w')
      end
  end.

(** [retry_on_failure(max_attempts, delay, backoff_factor, exceptions)(func)]
    for a coroutine function ([async_wrapper]; [sync_wrapper] is the same
    loop around [time.sleep]). *)
Definition retry_on_failure : M (option A) :=
  retry_loop (range max_attempts) None.
End Retry.

(** ** rss_client.py *)

Definition RSS_URL : str :=
  lit "https://www.stadt-koeln.de/externe-dienste/rss/pressemeldungen.xml".

(** The integer value of the environment variables the constructor reads,
    [None] for a variable that is not set. *)
Record environ := {
  CACHE_TTL : option Z;
  HTTP_TIMEOUT : option Z;
  HTTP_RETRIES : option Z;
}.

(** The fields of an [RssClient]. The [TTLCache] object it also creates is
    used by no operation and is left out. *)
Record RssClient := mkRssClient {
  rss_url : str;
  cache_ttl : Z;
  http_timeout : Z;
  max_retries : Z;
  _cached_items : option (list PressItem);
  _last_fetch : option Q;
}.

(** [arg or int(os.getenv(name, fallback))]: an argument that is [None] or
    [0] gives way to the environment. *)
Definition or_env (arg env_value : option Z) (fallback : Z) : Z :=
  match arg with
  | Some v => if v =? 0 then default fallback env_value else v
  | None => default fallback env_value
  end.

Definition RssClient_init (env : environ)
    (cache_ttl http_timeout max_retries : option Z) : RssClient :=
  mkRssClient RSS_URL
    (or_env cache_ttl (CACHE_TTL env) 300)
    (or_env http_timeout (HTTP_TIMEOUT env) 8)
    (or_env max_retries (HTTP_RETRIES env) 3)
    None None.

(** The exception tuple of the decorator on [fetch_raw]. *)
Definition transport_errors (e : exn) : bool :=
  match e with
  | RequestError _ | HTTPStatusError _ => true
  | _ => false
  end.

(** The undecorated body of [fetch_raw]: one GET of [self.rss_url]. *)
Definition fetch_raw_body (self : RssClient) : M bytes := http_get.

Definition fetch_raw (self : RssClient) : M (option bytes) :=
  retry_on_failure 3 1 2 transport_errors (fetch_raw_body self).

Section Client.
Context `{Platform}.

(** The loop of [parse_items] over the item elements; [items] is the list
    built so far. *)
Fixpoint parse_loop (elems : list element) (items : list PressItem)
  : M (list PressItem) :=
  match elems with
  | [] => mret items
  | item_elem :: rest => fun w =>
      match from_rss_item item_elem BASE_URL w with
      | (Ok press_item, w') => parse_loop rest (items ++ [press_item]) w'
      | (Raise e, w') => (_ ← print_error e; parse_loop rest items) w'
      end
  end.

Definition parse_items (xml_data : bytes) : M (list PressItem) :=
  match etree_fromstring xml_data with
  | None => raise InvalidXML
  | Some root =>
      match find root (lit "channel") with
      | None => raise MissingChannel
      | Some channel =>
          items ← parse_loop (findall channel (lit "item")) [];
          match items with
          | [] => raise NoValidItems
          | _ :: _ => mret items
          end
      end
  end.

(** [self.fetch_raw()] followed by [self.parse_items(xml_data)]. *)
Definition fetch_and_parse (self : RssClient) : M (list PressItem) :=
  xml_data ← fetch_raw self;
  match xml_data with
  | Some data => parse_items data
  | None => raise NotBytes
  end.

Definition set_cache (self : RssClient) (items : option (list PressItem))
    (at_time : option Q) : RssClient :=
  mkRssClient (rss_url self) (cache_ttl self) (http_timeout self)
              (max_retries self) items at_time.

(** The freshness test of [load_items_cached]. *)
Definition cache_valid (self : RssClient) (current_time : Q)
  : option (list PressItem) :=
  match _cached_items self, _last_fetch self with
  | Some items, Some last =>
      if Qlt_le_dec (current_time - last) (inject_Z (cache_ttl self))
      then Some items else None
  | _, _ => None
  end.

(** A method returns its result, or raises, together with the client as
    the call leaves it. *)
Definition load_items_cached (self : RssClient)
  : world -> result (list PressItem) * RssClient * world := fun w =>
  match read_clock w with
  | (Raise e, w1) => (Raise e, self, w1)
  | (Ok current_time, w1) =>
      match cache_valid self current_time with
      | Some items => (Ok items, self, w1)
      | None =>
          match fetch_and_parse self w1 with
          | (Ok items, w2) =>
              (Ok items, set_cache self (Some items) (Some current_time), w2)
          | (Raise e, w2) =>
              match _cached_items self with
              | Some stale => (Ok stale, self, w2)
              | None => (Raise e, self, w2)
              end
          end
      end
  end.

Definition get_item_by_id (self : RssClient) (item_id : str)
  : world -> result (option PressItem) * RssClient * world := fun w =>
  match load_items_cached self w with
  | (Ok items, self', w') =>
      (Ok (head (filter (fun item => id item = item_id) items)), self', w')
  | (Raise e, self', w') => (Raise e, self', w')
  end.

(** [l[:limit]]: a negative bound counts from the end. *)
Definition slice_to {T} (l : list T) (limit : Z) : list T :=
  if 0 <=? limit then take (Z.to_nat limit) l
  else take (length l - Z.to_nat (- limit)) l.

Definition _score_item (item : PressItem) (query : str) : Z :=
  let score := 0 in
  let score :=
    if contains (str_lower (title item)) query then score + 3 else score in
  let score :=
    fold_left
      (fun score category =>
         if contains (str_lower category) query then score + 2 else score)
      (categories item) score in
  let score :=
    if contains (str_lower (default [] (description item))) query
    then score + 1 else score in
  score.

(** [scored.sort(key=lambda x: x[0], reverse=True)]: Python's sort is
    stable, also when reversed, and a stable sort has one possible result
    (see [sort_by_score_unique]); it is computed here by insertion. *)
Fixpoint insert_by_score (x : Z * PressItem) (l : list (Z * PressItem))
  : list (Z * PressItem) :=
  match l with
  | [] => [x]
  | y :: l' =>
      if y.1 <=? x.1 then x :: l else y :: insert_by_score x l'
  end.

Definition sort_by_score (l : list (Z * PressItem)) : list (Z * PressItem) :=
  foldr insert_by_score [] l.

(** The loop of [search_items] that keeps the items of positive score. *)
Definition score_items (items : list PressItem) (query_lower : str)
  : list (Z * PressItem) :=
  fold_left
    (fun scored_items item =>
       let score := _score_item item query_lower in
       if 0 <? score then scored_items ++ [(score, item)]
       else scored_items)
    items [].

(** [search_items] once [load_items_cached] has returned [items]. *)
Definition search_in (items : list PressItem) (query : str) (limit : Z)
  : list PressItem :=
  let query_lower := strip (str_lower query) in
  if negb (truthy query_lower) then slice_to items limit
  else
    let scored_items := sort_by_score (score_items items query_lower) in
    snd <$> slice_to scored_items limit.

Definition search_items (self : RssClient) (query : str) (limit : Z)
  : world -> result (list PressItem) * RssClient * world := fun w =>
  match load_items_cached self w with
  | (Ok items, self', w') => (Ok (search_in items query limit), self', w')
  | (Raise e, self', w') => (Raise e, self', w')
  end.

Definition get_categories (self : RssClient) : list str :=
  match _cached_items self with
  | None => []
  | Some items =>
      let categories : gset str :=
        fold_left (fun acc item => acc ∪ list_to_set (categories item))
                  items ∅ in
      merge_sort str_le (elements categories)
  end.

Definition refresh_cache (self : RssClient)
  : world -> result unit * RssClient * world := fun w =>
  match fetch_and_parse self w with
  | (Ok items, w1) =>
      match read_clock w1 with
      | (Ok t, w2) => (Ok tt, set_cache self (Some items) (Some t), w2)
      | (Raise e, w2) => (Raise (RefreshFailed e), self, w2)
      end
  | (Raise e, w1) => (Raise (RefreshFailed e), self, w1)
  end.

Definition clear_cache (self : RssClient) : RssClient :=
  set_cache self None None.

End Client.

(** ** Vocabulary of the properties *)

(** [q] occurs in [s] as a contiguous slice. *)
Definition substring (q s : str) : Prop :=
  exists pre post, s = pre ++ q ++ post.

(** The world after one clock reading, and after [k] of them. *)
Definition tick (w : world) : world :=
  World (http w) (clock w) (requests w) (S (clock_reads w)) (slept w) (stdout w).

Definition skip_reads (k : nat) (w : world) : world :=
  World (http w) (clock w) (requests w) (clock_reads w + k) (slept w) (stdout w).

(** The [k]-th clock reading from [w] on. *)
Definition reading (w : world) (k : nat) : Q := clock w (clock_reads w + k).

(** The world after [n] GETs with the sleeps [ds] between them. *)
Definition after_requests (n : nat) (ds : list Q) (w : world) : world :=
  World (http w) (clock w) (requests w + n) (clock_reads w) (slept w ++ ds)
        (stdout w).

(** What [from_rss_item] reads in an entry: the title, the resolved link and
    the GUID text. *)
Definition entry_title (e : element) : str :=
  match text_of (find e (lit "title")) with
  | Some t => strip t
  | None => lit "Unbekannter Titel"
  end.

Definition entry_link (e : element) : str :=
  resolve_link BASE_URL
    (match text_of (find e (lit "link")) with
     | Some t => strip t
     | None => []
     end).

Definition entry_guid (e : element) : option str :=
  text_of (find e (lit "guid")).

(** The GUID an id is taken from: the trimmed GUID text, when not empty. *)
Definition usable_guid (e : element) : option str :=
  g ← entry_guid e; if truthy (strip g) then Some (strip g) else None.

(** The id rule for an item [x] parsed from the entry [e]. *)
Definition id_rule (e : element) (x : PressItem) : Prop :=
  match usable_guid e with
  | Some g => id x = g
  | None =>
      exists data,
        utf8_encode (strip (title x) ++ lit "|" ++ strip (entry_link e))
        = Some data
        /\ id x = SHA1.hexdigest data
  end.

Definition ok_item {A} (r : result A) : option A :=
  match r with Ok a => Some a | Raise _ => None end.

(** Two items that differ at most in their publication timestamp. *)
Definition same_content (x y : PressItem) : Prop :=
  id x = id y /\ title x = title y /\ link x = link y
  /\ description x = description y /\ categories x = categories y
  /\ raw_guid x = raw_guid y /\ source x = source y.

(** Descending order of the scored pairs. *)
Definition score_desc (a b : Z * PressItem) : Prop := b.1 <= a.1.


(** The clock readings [from_rss_item] makes on an entry: one for the
    default time stamp and, when the entry has a pubDate text, the one of
    [dateutil]. *)
Definition has_pubdate (e : element) : bool :=
  match text_of (find e (lit "pubDate")) with
  | Some _ => true
  | None => false
  end.

Definition entry_reads (e : element) : nat :=
  if has_pubdate e then 2%nat else 1%nat.

(** The entries of a feed, each with the number of clock readings that the
    entries before it take, counted from [k]. *)
Fixpoint positions (k : nat) (elems : list element) : list (element * nat) :=
  match elems with
  | [] => []
  | e :: rest => (e, k) :: positions (k + entry_reads e) rest
  end.

(** A finite binary64 number: [m * 2 ^ e] with [|m| < 2 ^ 53] and
    [-1074 <= e <= 971]. *)
Fixpoint odd_part (p : positive) : positive :=
  match p with
  | xO p' => odd_part p'
  | _ => p
  end.

Definition binary64 (x : Q) : bool :=
  let r := Qred x in
  let n := Z.abs (Qnum r) in
  match Qden r with
  | xH =>
      match n with
      | Zpos p => (Zpos (odd_part p) <? 2 ^ 53) && (n <? 2 ^ 1024)
      | _ => true
      end
  | d =>
      Pos.eqb (odd_part d) 1 && (Zpos d <=? 2 ^ 1074) && (n <? 2 ^ 53)
  end.

(** The waits of the first [k] retries are computed exactly in binary64:
    each power and each product is a binary64 number, so that [pow] and the
    multiplication return it unrounded. *)
Definition exact_waits (delay backoff_factor : Q) (k : nat) : bool :=
  binary64 delay && binary64 backoff_factor
  && forallb
       (fun j =>
          binary64 (backoff_factor ^ Z.of_nat j)
          && binary64 (delay * backoff_factor ^ Z.of_nat j))
       (seq 0 k).

Section Entries.
Context `{Platform}.

Definition entry_description (e : element) : option str :=
  match text_of (find e CONTENT_ENCODED) with
  | Some t => Some t
  | None => text_of (find e (lit "description"))
  end.

(** The publication date the entry states, when [dateutil] reads it;
    [today] is the clock reading [dateutil] makes. *)
Definition entry_pubdate (today : datetime) (e : element) : option datetime :=
  match text_of (find e (lit "pubDate")) with
  | Some t => dateutil_parse today (strip t)
  | None => None
  end.

Definition entry_id (e : element) : result str :=
  generate_stable_id (entry_title e) (entry_link e) (strip <$> entry_guid e).

(** The item of an entry, given the clock reading of the call, [now], and
    the one [dateutil] makes after it, [today]. *)
Definition item_at (now today : datetime) (e : element) : result PressItem :=
  match entry_id e with
  | Raise ex => Raise ex
  | Ok item_id =>
      match any_url (entry_link e) with
      | Some url =>
          Ok (mkPressItem item_id (entry_title e) url (entry_description e)
                (default now (entry_pubdate today e)) (extract_categories e)
                (strip <$> entry_guid e) (lit "rss:stadt-koeln"))
      | None => Raise ValidationError
      end
  end.

(** The entries [from_rss_item] accepts, and the id each of them gets. *)
Definition accepted_id (e : element) : option str :=
  match entry_id e, any_url (entry_link e) with
  | Ok item_id, Some _ => Some item_id
  | _, _ => None
  end.

Definition accepted (e : element) : Prop := is_Some (accepted_id e).
#[global] Instance accepted_dec e : Decision (accepted e) :=
  is_Some_dec (accepted_id e).

(** The outcome of [from_rss_item] on each entry taken by itself: an entry
    is parsed at the clock readings that follow those of the entries before
    it. *)
Fixpoint individually (w : world) (elems : list element)
  : list (result PressItem) :=
  match elems with
  | [] => []
  | e :: rest =>
      (from_rss_item e BASE_URL w).1
      :: individually (skip_reads (entry_reads e) w) rest
  end.

(** The channel of a feed and its item entries, when the bytes are
    well-formed and the root has a channel. *)
Definition feed_channel (xml_data : bytes) : option element :=
  root ← etree_fromstring xml_data; find root (lit "channel").

Definition feed_entries (xml_data : bytes) : list element :=
  match feed_channel xml_data with
  | Some channel => findall channel (lit "item")
  | None => []
  end.

(** The relevance score in the words of the specification. *)
Definition relevance (item : PressItem) (q : str) : Z :=
  (if contains (str_lower (title item)) q then 3 else 0)
  + 2 * Z.of_nat
          (length (filter (fun c => contains (str_lower c) q = true)
                          (categories item)))
  + (if contains (str_lower (default [] (description item))) q then 1 else 0).

Definition scored (q : str) (item : PressItem) : Z * PressItem :=
  (relevance item q, item).

(** The items of positive score, best first, before truncation. *)
Definition ranked (items : list PressItem) (q : str) : list PressItem :=
  snd <$> sort_by_score (score_items items q).

End Entries.

(** ** A concrete platform and concrete feeds

    Stand-ins for the libraries on the inputs used below, where they agree
    with the real ones: ASCII lower-casing, a table of parsed documents, URLs
    with an http(s) scheme and no blank, a table of dates (seconds since the
    epoch) and one text without a date. *)

Module Sample.

Definition ascii_lower (s : str) : str :=
  (fun c => if (65 <=? c) && (c <=? 90) then c + 32 else c)%N <$> s.

Definition utf8 (s : string) : bytes := byte_of <$> lit s.

Definition leaf (t txt : string) : element :=
  Element (lit t) (Some (lit txt)) [].
Definition node (t : string) (cs : list element) : element :=
  Element (lit t) None cs.

Definition dated_item : element :=
  node "item"
    [leaf "title" "Stadt informiert ueber Baustellen";
     leaf "link" "/pressemeldungen/123";
     leaf "description" "Neue Baustellen in der Innenstadt";
     leaf "pubDate" "Tue, 15 Oct 2024 10:30:00 +0200";
     leaf "category" "Verkehr";
     leaf "category" "Baustellen";
     leaf "guid" "item-123"].

Definition undated_item : element :=
  node "item"
    [leaf "title" "Neue Kulturveranstaltungen";
     leaf "link" "https://www.stadt-koeln.de/pressemeldungen/124";
     leaf "category" "Kultur"].

(** An entry whose pubDate gives a time of day and no date. *)
Definition time_only_item : element :=
  node "item"
    [leaf "title" "Sprechstunde"; leaf "link" "/s";
     leaf "pubDate" "10:30:00"; leaf "guid" "item-7"].

Definition first_item : element :=
  node "item" [leaf "title" "First"; leaf "link" "/a"; leaf "guid" "item-1"].
Definition second_item : element :=
  node "item" [leaf "title" "Second"; leaf "link" "/b"; leaf "guid" "item-1"].

Definition broken_item : element :=
  node "item" [leaf "title" "Broken"; leaf "link" "httpx"].

(** Two entries without GUID whose title and link differ and whose
    "title|link" strings coincide. *)
Definition bar_in_link : element :=
  node "item" [leaf "title" "x"; leaf "link" "/a|https://www.stadt-koeln.de/b"].
Definition bar_in_title : element :=
  node "item" [leaf "title" "x|https://www.stadt-koeln.de/a"; leaf "link" "/b"].

Definition feed (items : list element) : element :=
  node "rss" [node "channel" (leaf "title" "Pressemitteilungen" :: items)].

Definition dated_feed : bytes :=
  utf8 ("<rss><channel><title>Pressemitteilungen</title><item>"
        ++ "<title>Stadt informiert ueber Baustellen</title>"
        ++ "<link>/pressemeldungen/123</link>"
        ++ "<description>Neue Baustellen in der Innenstadt</description>"
        ++ "<pubDate>Tue, 15 Oct 2024 10:30:00 +0200</pubDate>"
        ++ "<category>Verkehr</category><category>Baustellen</category>"
        ++ "<guid>item-123</guid></item></channel></rss>").

Definition undated_feed : bytes :=
  utf8 ("<rss><channel><title>Pressemitteilungen</title><item>"
        ++ "<title>Neue Kulturveranstaltungen</title>"
        ++ "<link>https://www.stadt-koeln.de/pressemeldungen/124</link>"
        ++ "<category>Kultur</category></item></channel></rss>").

(** A feed with a dated entry, one with a time of day only and one without
    pubDate. *)
Definition mixed_feed : bytes :=
  utf8 ("<rss><channel><title>Pressemitteilungen</title><item>"
        ++ "<title>Stadt informiert ueber Baustellen</title>"
        ++ "<link>/pressemeldungen/123</link>"
        ++ "<description>Neue Baustellen in der Innenstadt</description>"
        ++ "<pubDate>Tue, 15 Oct 2024 10:30:00 +0200</pubDate>"
        ++ "<category>Verkehr</category><category>Baustellen</category>"
        ++ "<guid>item-123</guid></item>"
        ++ "<item><title>Sprechstunde</title><link>/s</link>"
        ++ "<pubDate>10:30:00</pubDate><guid>item-7</guid></item>"
        ++ "<item><title>Neue Kulturveranstaltungen</title>"
        ++ "<link>https://www.stadt-koeln.de/pressemeldungen/124</link>"
        ++ "<category>Kultur</category></item></channel></rss>").

Definition duplicate_feed : bytes :=
  utf8 ("<rss><channel><title>Pressemitteilungen</title>"
        ++ "<item><title>First</title><link>/a</link><guid>item-1</guid></item>"
        ++ "<item><title>Second</title><link>/b</link><guid>item-1</guid></item>"
        ++ "</channel></rss>").

Definition broken_feed : bytes :=
  utf8 ("<rss><channel><title>Pressemitteilungen</title>"
        ++ "<item><title>Broken</title><link>httpx</link></item>"
        ++ "</channel></rss>").

Definition no_channel_feed : bytes := utf8 "<rss><item></item></rss>".
Definition not_xml : bytes := utf8 "<invalid>xml</wrong>".

Definition documents : list (bytes * element) :=
  [(dated_feed, feed [dated_item]);
   (undated_feed, feed [undated_item]);
   (mixed_feed, feed [dated_item; time_only_item; undated_item]);
   (duplicate_feed, feed [first_item; second_item]);
   (broken_feed, feed [broken_item]);
   (no_channel_feed, node "rss" [Element (lit "item") None []])].

Definition same_bytes (a b : bytes) : bool :=
  bool_decide (Byte.to_N <$> a = Byte.to_N <$> b).

Fixpoint lookup_in {K V} (eqb : K -> K -> bool) (table : list (K * V))
    (k : K) : option V :=
  match table with
  | [] => None
  | (k', v) :: rest => if eqb k k' then Some v else lookup_in eqb rest k
  end.

Definition url_ok (s : str) : option str :=
  if (startswith s (lit "http://") || startswith s (lit "https://"))
     && forallb (fun c => negb (is_space c)) s
  then Some s else None.

Definition dates : list (str * datetime) :=
  [(lit "Tue, 15 Oct 2024 10:30:00 +0200", inject_Z 1728981000)].

(** Midnight of the day of a clock reading, on a machine set to UTC. *)
Definition midnight (today : datetime) : datetime :=
  inject_Z (86400 * (Qnum today / Zpos (Qden today) / 86400)).

(** A text with a complete date is read from the table, whatever the day;
    the text "10:30:00" gives that time on the day of the reading. *)
Definition parse_date (today : datetime) (timestr : str) : option datetime :=
  if bool_decide (timestr = lit "10:30:00")
  then Some (midnight today + inject_Z 37800)%Q
  else lookup_in (fun a b => bool_decide (a = b)) dates timestr.

Definition platform : Platform := {|
  str_lower := ascii_lower;
  etree_fromstring := lookup_in same_bytes documents;
  any_url := url_ok;
  dateutil_parse := parse_date;
|}.

(** A network that is down, and clocks that read [t], [t + 1], ...
    seconds. *)
Definition down : nat -> result bytes :=
  fun _ => Raise (RequestError "down").
Definition world_at (t : Z) (net : nat -> result bytes) : world :=
  World net (fun k => inject_Z (t + Z.of_nat k)) 0 0 [] [].

Definition no_env : environ := Build_environ None None None.

Definition item (i t : string) (d : option string) (cs : list string)
  : PressItem :=
  mkPressItem (lit i) (lit t) (lit "https://www.stadt-koeln.de/p")
              (lit <$> d) (inject_Z 1728981000) (lit <$> cs) None
              (lit "rss:stadt-koeln").

(** The three items of the ranking example of the specification, the
    description match first. *)
Definition by_description : PressItem :=
  item "d" "Meldung" (Some "Hinweis zu Baustellen im Zentrum"%string) [].
Definition by_category : PressItem :=
  item "c" "Verkehrslage" None ["Baustellen"%string].
Definition by_title : PressItem :=
  item "t" "Baustellen News" None [].
Definition by_title_too : PressItem :=
  item "u" "Weitere Baustellen" None [].
Definition unrelated : PressItem :=
  item "n" "Zoo" (Some "Neue Anlage"%string) ["Tierpark"%string; "Kultur"%string].

Definition snapshot : list PressItem :=
  [by_description; unrelated; by_title; by_category; by_title_too].

Definition with_cache (items : option (list PressItem)) (at_time : option Q)
  : RssClient :=
  set_cache (RssClient_init no_env None None None) items at_time.

End Sample.


(** ** utils.py: [sanitize_string] *)

(** The class [[\x00-\x08\x0B\x0C\x0E-\x1F\x7F]] of the regular
    expression. *)
Definition regex_class (c : char) : bool :=
  ((c <=? 8) || (c =? 11) || (c =? 12) || (14 <=? c) && (c <=? 31)
   || (c =? 127))%N.

(** [s.split()] without argument: the maximal runs of characters that are
    no white space; [word] is the run being read. *)
Fixpoint split_from (word s : str) : list str :=
  match s with
  | [] => if truthy word then [word] else []
  | c :: s' =>
      if is_space c then
        if truthy word then word :: split_from [] s' else split_from [] s'
      else split_from (word ++ [c]) s'
  end.
Definition str_split (s : str) : list str := split_from [] s.

(** [sep.join(l)]. *)
Fixpoint str_join (sep : str) (l : list str) : str :=
  match l with
  | [] => []
  | [w] => w
  | w :: l' => w ++ sep ++ str_join sep l'
  end.

Definition sanitize_string (text : str) : str :=
  if negb (truthy text) then []
  else
    let cleaned := List.filter (fun c => negb (regex_class c)) text in
    str_join (lit " ") (str_split cleaned).

(** A word: not empty, without white space. *)
Definition is_word (w : str) : Prop :=
  w <> [] /\ Forall (fun c => is_space c = false) w.

(** ** utils.py: [TTLCache]

    The dictionary is a list of key-value pairs in insertion order, as a
    Python [dict] keeps them; the lock is not modelled (one caller at a
    time). *)

(** [k in d], [d[k]], [del d[k]] and [d[k] = v] on such a list. *)
Fixpoint dict_get {V} (k : str) (d : list (str * V)) : option V :=
  match d with
  | [] => None
  | (k', v) :: d' => if decide (k = k') then Some v else dict_get k d'
  end.

Fixpoint dict_del {V} (k : str) (d : list (str * V)) : list (str * V) :=
  match d with
  | [] => []
  | (k', v) :: d' => if decide (k = k') then d' else (k', v) :: dict_del k d'
  end.

Fixpoint dict_setitem {V} (k : str) (v : V) (d : list (str * V))
  : list (str * V) :=
  match d with
  | [] => [(k, v)]
  | (k', v') :: d' =>
      if decide (k = k') then (k, v) :: d' else (k', v') :: dict_setitem k v d'
  end.

(** [min(d.keys(), key=lambda k: d[k][1])] on a non-empty dictionary: the
    first key whose timestamp is the smallest; [best] is the candidate so
    far. *)
Fixpoint oldest_from {V} (best : str * (V * Q)) (d : list (str * (V * Q)))
  : str :=
  match d with
  | [] => best.1
  | e :: d' =>
      if Qlt_le_dec e.2.2 best.2.2 then oldest_from e d'
      else oldest_from best d'
  end.

Module TTLCache.

Record t (V : Type) := mk {
  ttl : Z;
  max_size : Z;
  _cache : list (str * (V * Q));
}.
Arguments mk {V} ttl max_size _cache.
Arguments ttl {V} self : rename.
Arguments max_size {V} self : rename.
Arguments _cache {V} self : rename.

(** What [set] does: it returns, or the [min] of an empty dictionary raises
    [ValueError]. *)
Inductive outcome := Done | ValueError.

(** [TTLCache(ttl_seconds, max_size)], by default 300 and 1000. *)
Definition init {V} (ttl_seconds max_size : option Z) : t V :=
  mk (default 300 ttl_seconds) (default 1000 max_size) [].

Definition with_entries {V} (self : t V) (d : list (str * (V * Q))) : t V :=
  mk (ttl self) (max_size self) d.

(** An entry stamped [timestamp] is expired at [now]. *)
Definition expired {V} (self : t V) (now timestamp : Q) : bool :=
  if Qlt_le_dec (now - timestamp) (inject_Z (ttl self)) then false else true.

(** [get]: the clock is read only when the key is present. *)
Definition get {V} (self : t V) (key : str)
  : world -> option V * t V * world := fun w =>
  match dict_get key (_cache self) with
  | Some (value, timestamp) =>
      if expired self (clock w (clock_reads w)) timestamp
      then (None, with_entries self (dict_del key (_cache self)), tick w)
      else (Some value, self, tick w)
  | None => (None, self, w)
  end.

(** The entries left once those expired at [current_time] are deleted. *)
Definition drop_expired {V} (self : t V) (current_time : Q)
  : list (str * (V * Q)) :=
  List.filter (fun e => negb (expired self current_time e.2.2)) (_cache self).

Definition at_capacity {V} (self : t V) (d : list (str * (V * Q))) : bool :=
  max_size self <=? Z.of_nat (length d).

Definition set {V} (self : t V) (key : str) (value : V)
  : world -> outcome * t V * world := fun w =>
  if at_capacity self (_cache self) then
    let current_time := clock w (clock_reads w) in
    let w1 := tick w in
    let kept := drop_expired self current_time in
    if at_capacity self kept then
      match kept with
      | [] => (ValueError, with_entries self kept, w1)
      | e :: rest =>
          let oldest_key := oldest_from e rest in
          let d := dict_del oldest_key kept in
          (Done,
           with_entries self
             (dict_setitem key (value, clock w1 (clock_reads w1)) d),
           tick w1)
      end
    else
      (Done,
       with_entries self
         (dict_setitem key (value, clock w1 (clock_reads w1)) kept),
       tick w1)
  else
    (Done,
     with_entries self
       (dict_setitem key (value, clock w (clock_reads w)) (_cache self)),
     tick w).

Definition clear {V} (self : t V) : t V := with_entries self [].

Definition size {V} (self : t V) : nat := length (_cache self).

End TTLCache.

(** The keys of a dictionary, and a cache whose dictionary has each key
    once. *)
Definition dict_keys {V} (d : list (str * V)) : list str := fst <$> d.

(** ** More vocabulary *)

(** The exception of a call that raised. *)
Definition raised {A} (r : result A) : option exn :=
  match r with Ok _ => None | Raise e => Some e end.

(** The digits [hexdigest] writes: 0-9 and a-f. *)
Definition is_hex_digit (c : char) : bool :=
  ((48 <=? c) && (c <=? 57) || (97 <=? c) && (c <=? 102))%N.

(** Nothing to trim at either end. *)
Definition trimmed (s : str) : Prop := strip s = s.

(** ** server.py: the tool handlers

    A handler returns a reply, or raises an [HTTPException], together with
    the records it logs and the global client and the world as it leaves
    them. The request parameters arrive validated by FastAPI. The text
    [datetime.isoformat] writes is a parameter, [isoformat]. The handler
    [latest] is not modelled: it compares [datetime] values, and what such a
    comparison does depends on their time zones, which [datetime] here does
    not carry. *)

Module PressItemResponse.
Record t := mk {
  id : str;
  title : str;
  link : str;
  description : option str;
  published_at : str;
  categories : list str;
  source : str;
}.
End PressItemResponse.

(** The [detail] of an [HTTPException], by the message it is built from. *)
Inductive detail :=
| SearchFailed (e : exn)              (* "Search failed: {e}" *)
| ItemNotFound (item_id : str)        (* "Press item not found: {id}" *)
| FailedToFetchItem (e : exn)         (* "Failed to fetch item: {e}" *)
| FailedToFetchCategories (e : exn)   (* "Failed to fetch categories: {e}" *)
| ServiceUnhealthy.                   (* "Service unhealthy" *)

Inductive reply (A : Type) :=
| Reply (a : A)
| HTTPException (status_code : Z) (d : detail).
Arguments Reply {A} a.
Arguments HTTPException {A} status_code d.

(** The records of [logger.info] and [logger.error], by their message. *)
Inductive log_record :=
| InfoSearch (query : str) (n : nat)  (* "Search for '{query}' returned {n} items" *)
| InfoRetrieved (item_id : str)       (* "Retrieved item: {id}" *)
| InfoCategories (n : nat)            (* "Returned {n} categories" *)
| ErrorSearch (e : exn)               (* "Error in search tool: {e}" *)
| ErrorGet (e : exn)                  (* "Error in get tool: {e}" *)
| ErrorCategories (e : exn)           (* "Error in categories tool: {e}" *)
| ErrorHealth (e : exn).              (* "Health check failed: {e}" *)

Module Server.
Section Handlers.
Context `{Platform}.
Variable isoformat : datetime -> str.

(** The conversion every handler applies to an item. *)
Definition response_item (item : PressItem) : PressItemResponse.t :=
  PressItemResponse.mk (id item) (title item) (link item) (description item)
    (isoformat (published_at item)) (categories item) (source item).


Definition get_item (client : RssClient) (item_id : str)
  : world -> reply PressItemResponse.t * list log_record
             * RssClient * world := fun w =>
  match get_item_by_id client item_id w with
  | (Ok None, client', w') =>
      (HTTPException 404 (ItemNotFound item_id), [], client', w')
  | (Ok (Some item), client', w') =>
      (Reply (response_item item), [InfoRetrieved item_id], client', w')
  | (Raise e, client', w') =>
      (HTTPException 500 (FailedToFetchItem e), [ErrorGet e], client', w')
  end.

Definition categories (client : RssClient)
  : world -> reply (list str) * list log_record * RssClient * world :=
  fun w =>
  match load_items_cached client w with
  | (Ok _, client', w') =>
      let categories := get_categories client' in
      (Reply categories, [InfoCategories (length categories)], client', w')
  | (Raise e, client', w') =>
      (HTTPException 500 (FailedToFetchCategories e), [ErrorCategories e],
       client', w')
  end.

Definition health_check (client : RssClient)
  : world -> reply unit * list log_record * RssClient * world := fun w =>
  match load_items_cached client w with
  | (Ok _, client', w') => (Reply tt, [], client', w')
  | (Raise e, client', w') =>
      (HTTPException 503 ServiceUnhealthy, [ErrorHealth e], client', w')
  end.

End Handlers.
End Server.

(** ** More concrete inputs *)

Module SampleMore.

(** A network whose first GET fails and that answers from then on, and one
    that always answers. *)
Definition flaky : nat -> result bytes :=
  fun k => match k with
           | O => Raise (RequestError "down")
           | S _ => Ok Sample.dated_feed
           end.

(** A network whose first two GETs fail. *)
Definition flaky_twice : nat -> result bytes :=
  fun k => if (k <? 2)%nat then Raise (RequestError "down")
           else Ok Sample.dated_feed.
Definition up : nat -> result bytes := fun _ => Ok Sample.dated_feed.

Definition blank_title_item : element :=
  Sample.node "item" [Sample.leaf "title" "   "; Sample.leaf "link" "/x"].

(** A cache of two entries, stamped 990 and 980, with room for two and a
    time to live of 60 seconds. *)
Definition two_entries : TTLCache.t Z :=
  TTLCache.mk 60 2 [(lit "a", (1, inject_Z 990)); (lit "b", (2, inject_Z 980))].

(** The text of the one time stamp of the sample snapshot. *)
Definition isoformat : datetime -> str :=
  fun _ => lit "2024-10-15T10:30:00+02:00".

End SampleMore.

(** * Properties *)

(** ** SHA-1 test vectors (FIPS 180) *)

Example sha1_abc :
  SHA1.hexdigest (byte_of <$> lit "abc")
  = lit "a9993e364706816aba3e25717850c26c9cd0d89d".
Proof. vm_compute. reflexivity. Qed.

Example sha1_empty :
  SHA1.hexdigest [] = lit "da39a3ee5e6b4b0d3255bfef95601890afd80709".
Proof. vm_compute. reflexivity. Qed.

Example sha1_two_blocks :
  SHA1.hexdigest
    (byte_of <$> lit "abcdbcdecdefdefgefghfghighijhijkijkljklmklmnlmnomnopnopq")
  = lit "84983e441c3bd26ebaae4aa1f95129e5e54670f1".
Proof. vm_compute. reflexivity. Qed.


(** ** Strings *)

Lemma drop_while_suffix {A} (p : A -> bool) (l : list A) :
  exists k, l = k ++ drop_while p l.
Proof.
  induction l as [|x l [k IH]]; simpl.
  - by exists [].
  - destruct (p x).
    + exists (x :: k). simpl. by f_equal.
    + by exists [].
Qed.

Lemma drop_while_head {A} (p : A -> bool) (l : list A) x r :
  drop_while p l = x :: r -> p x = false.
Proof.
  induction l as [|y l IH]; simpl; [done|].
  destruct (p y) eqn:E; [exact IH|]. intros [= -> _]. exact E.
Qed.

Lemma drop_while_fixed {A} (p : A -> bool) (l : list A) :
  match l with [] => True | x :: _ => p x = false end ->
  drop_while p l = l.
Proof. destruct l as [|x l]; simpl; [done|]. by intros ->. Qed.

Lemma drop_while_idemp {A} (p : A -> bool) (l : list A) :
  drop_while p (drop_while p l) = drop_while p l.
Proof.
  apply drop_while_fixed. destruct (drop_while p l) eqn:E; [done|].
  by eapply drop_while_head.
Qed.

Lemma rstrip_prefix s : exists k, s = rstrip s ++ k.
Proof.
  unfold rstrip. destruct (drop_while_suffix is_space (reverse s)) as [k Hk].
  exists (reverse k). rewrite <- reverse_app, <- Hk. by rewrite reverse_involutive.
Qed.

Lemma strip_idemp s : strip (strip s) = strip s.
Proof.
  unfold strip.
  assert (Hl : lstrip (rstrip (lstrip s)) = rstrip (lstrip s)).
  { unfold lstrip at 1. apply drop_while_fixed.
    destruct (rstrip_prefix (lstrip s)) as [k Hk].
    destruct (rstrip (lstrip s)) as [|c r] eqn:E; [done|].
    unfold lstrip in Hk. simpl in Hk. by eapply drop_while_head. }
  rewrite Hl. unfold rstrip at 1 2.
  by rewrite reverse_involutive, drop_while_idemp.
Qed.

Lemma startswith_spec s p : startswith s p = true <-> exists r, s = p ++ r.
Proof.
  revert s. induction p as [|c p IH]; intros s; simpl.
  - destruct s; simpl; split; eauto.
  - destruct s as [|d s]; simpl.
    + split; [done | by intros [r Hr]].
    + rewrite andb_true_iff, N.eqb_eq, IH. split.
      * intros [-> [r ->]]. by exists r.
      * intros [r [= -> ->]]. split; [done | by exists r].
Qed.

Lemma contains_spec s q : contains s q = true <-> substring q s.
Proof.
  unfold substring. induction s as [|d s IH]; cbn [contains].
  - rewrite orb_false_r, startswith_spec. split.
    + intros [r Hr]. by exists [], r.
    + intros (pre & post & Hs). destruct pre; [by exists post|done].
  - rewrite orb_true_iff, startswith_spec, IH. split.
    + intros [[r Hr] | (pre & post & ->)].
      * by exists [], r.
      * by exists (d :: pre), post.
    + intros (pre & post & Hs). destruct pre as [|c pre].
      * left. by exists post.
      * right. injection Hs as -> ->. by exists pre, post.
Qed.

Lemma str_leb_refl a : str_leb a a = true.
Proof.
  induction a as [|c a IH]; simpl; [done|].
  by rewrite N.eqb_refl, IH, orb_true_r.
Qed.

#[global] Instance str_le_total : Total str_le.
Proof.
  unfold Total, str_le. intros a. induction a as [|c a IH]; intros [|d b]; simpl; auto.
  destruct (N.lt_trichotomy c d) as [Hlt | [-> | Hgt]].
  - left. apply N.ltb_lt in Hlt. by rewrite Hlt.
  - rewrite N.eqb_refl, N.ltb_irrefl. simpl. apply IH.
  - right. apply N.ltb_lt in Hgt. by rewrite Hgt.
Qed.

#[global] Instance str_le_trans : Transitive str_le.
Proof.
  unfold Transitive, str_le. intros a. induction a as [|c a IH]; intros [|d b] [|e z]; simpl; try done.
  rewrite !orb_true_iff, !andb_true_iff, !N.ltb_lt, !N.eqb_eq.
  intros [H1 | [-> H1]] [H2 | [-> H2]].
  - left. by etrans.
  - by left.
  - by left.
  - right. split; [done|]. by eapply IH.
Qed.

#[global] Instance str_le_antisymm : AntiSymm (=) str_le.
Proof.
  unfold AntiSymm, str_le. intros a. induction a as [|c a IH]; intros [|d b]; simpl; try done.
  rewrite !orb_true_iff, !andb_true_iff, !N.ltb_lt, !N.eqb_eq.
  intros [H1 | [-> H1]] [H2 | [H3 H2]].
  - exfalso. eapply N.lt_irrefl. by etrans.
  - subst. by apply N.lt_irrefl in H1.
  - by apply N.lt_irrefl in H2.
  - f_equal. by apply IH.
Qed.

(** ** One entry, and the loop over the entries *)

Section EntryFacts.
Context `{Platform}.

Lemma skip_reads_S k w : skip_reads k (tick w) = skip_reads (S k) w.
Proof. unfold skip_reads, tick. simpl. f_equal. lia. Qed.

Lemma skip_reads_add j k w :
  skip_reads j (skip_reads k w) = skip_reads (k + j) w.
Proof. unfold skip_reads. simpl. f_equal. lia. Qed.

(** One entry: the first clock reading is the default time stamp, the
    second, made only for an entry with a pubDate text, is [dateutil]'s. *)
Lemma from_rss_item_run e w :
  from_rss_item e BASE_URL w
  = (item_at (clock w (clock_reads w)) (clock w (S (clock_reads w))) e,
     skip_reads (entry_reads e) w).
Proof.
  unfold from_rss_item, item_at, entry_id, entry_pubdate, entry_description,
    entry_guid, entry_link, entry_title, entry_reads, has_pubdate.
  unfold mbind, M_bind, mret, M_ret, lift, raise, read_clock, skip_reads.
  destruct (text_of (find e (lit "pubDate"))) as [t|];
    cbn [clock clock_reads http requests slept stdout];
    rewrite ?Nat.add_1_r, ?(Nat.add_comm _ 2); cbn [Nat.add];
    (destruct (generate_stable_id _ _ _); [|done]);
    by destruct (any_url _).
Qed.

Lemma item_at_accepted now today e :
  accepted e <-> exists x, item_at now today e = Ok x.
Proof.
  unfold accepted, accepted_id, item_at. destruct (entry_id e) as [i|ex].
  - destruct (any_url _) as [u|].
    + split; [intros _; eauto | intros _; by eexists].
    + split; intros [? ?]; done.
  - split; intros [? ?]; done.
Qed.


Lemma item_at_same_content now1 today1 now2 today2 e x y :
  item_at now1 today1 e = Ok x -> item_at now2 today2 e = Ok y ->
  same_content x y
  /\ published_at x = default now1 (entry_pubdate today1 e)
  /\ published_at y = default now2 (entry_pubdate today2 e).
Proof.
  unfold item_at. destruct (entry_id e); [|done].
  destruct (any_url _); [|done]. intros [= <-] [= <-]. simpl.
  by repeat split.
Qed.

Lemma individually_cons w e elems :
  individually w (e :: elems)
  = item_at (clock w (clock_reads w)) (clock w (S (clock_reads w))) e
    :: individually (skip_reads (entry_reads e) w) elems.
Proof. cbn [individually]. by rewrite from_rss_item_run. Qed.

Lemma individually_ext elems : forall w1 w2,
  clock w1 = clock w2 -> clock_reads w1 = clock_reads w2 ->
  individually w1 elems = individually w2 elems.
Proof.
  induction elems as [|e elems IH]; intros w1 w2 Hc Hr; [done|].
  rewrite !individually_cons, Hc, Hr. f_equal.
  apply IH; simpl; [done | by rewrite Hr].
Qed.

(** The loop never raises: it returns the items of the entries that parse,
    in feed order, after those it was given. *)
Lemma parse_loop_run elems : forall items w,
  exists w', parse_loop elems items w
             = (Ok (items ++ omap ok_item (individually w elems)), w').
Proof.
  induction elems as [|e elems IH]; intros items w.
  - exists w. simpl. by rewrite app_nil_r.
  - rewrite individually_cons. cbn [parse_loop].
    rewrite from_rss_item_run.
    destruct (item_at _ _ e) as [x|ex]; simpl.
    + destruct (IH (items ++ [x]) (skip_reads (entry_reads e) w)) as [w' ->].
      exists w'. by rewrite <- app_assoc.
    + unfold mbind, M_bind, print_error. simpl.
      match goal with |- context [parse_loop elems items ?w1] =>
        destruct (IH items w1) as [w' Hw'] end.
      exists w'. rewrite Hw'.
      by rewrite (individually_ext _ _ (skip_reads (entry_reads e) w)).
Qed.

(** The four outcomes of [parse_items]. *)
Lemma parse_items_run xml_data w :
  exists w',
    parse_items xml_data w =
    (match etree_fromstring xml_data with
     | None => Raise InvalidXML
     | Some root =>
         match find root (lit "channel") with
         | None => Raise MissingChannel
         | Some channel =>
             match omap ok_item (individually w (findall channel (lit "item"))) with
             | [] => Raise NoValidItems
             | x :: l => Ok (x :: l)
             end
         end
     end, w').
Proof.
  unfold parse_items. destruct (etree_fromstring xml_data) as [root|].
  2: { by exists w. }
  destruct (find root (lit "channel")) as [channel|].
  2: { by exists w. }
  unfold mbind, M_bind.
  destruct (parse_loop_run (findall channel (lit "item")) [] w) as [w' ->].
  exists w'. simpl. by destruct (omap _ _).
Qed.

End EntryFacts.

Section ParserFacts.
Context `{Platform}.

Lemma item_at_rejected now today e ex :
  item_at now today e = Raise ex -> accepted_id e = None.
Proof.
  unfold accepted_id, item_at. destruct (entry_id e); [|done].
  by destruct (any_url _).
Qed.


(** Two runs over the same entries: the items differ at most in their time
    stamps, and the time stamp of each is what [dateutil] makes of the
    pubDate text at the second clock reading of its entry, or else the first
    clock reading of its entry. *)
Lemma survivors_twice elems : forall k w1 w2,
  Forall3 (fun ek x y =>
             same_content x y
             /\ published_at x
                = default (reading w1 ek.2)
                          (entry_pubdate (reading w1 (S ek.2)) ek.1)
             /\ published_at y
                = default (reading w2 ek.2)
                          (entry_pubdate (reading w2 (S ek.2)) ek.1))
          (filter (fun ek => accepted ek.1) (positions k elems))
          (omap ok_item (individually (skip_reads k w1) elems))
          (omap ok_item (individually (skip_reads k w2) elems)).
Proof.
  induction elems as [|e elems IH]; intros k w1 w2; [constructor|].
  rewrite !individually_cons, !skip_reads_add. cbn [omap list_omap positions].
  cbn [skip_reads clock clock_reads].
  rewrite <- !Nat.add_succ_r. fold (reading w1 k) (reading w1 (S k)).
  fold (reading w2 k) (reading w2 (S k)).
  destruct (item_at (reading w1 k) _ e) as [x|ex] eqn:E1.
  - assert (Ha : accepted e) by (eapply item_at_accepted; eauto).
    destruct (proj1 (item_at_accepted (reading w2 k) (reading w2 (S k)) e) Ha)
      as [y E2].
    rewrite E2, filter_cons_True by done. cbn [ok_item].
    constructor; [by eapply item_at_same_content | apply IH].
  - assert (Ha : ~ accepted e).
    { unfold accepted. rewrite (item_at_rejected _ _ _ _ E1). by intros [? ?]. }
    destruct (item_at (reading w2 k) _ e) as [y|ex2] eqn:E2.
    + exfalso. apply Ha. eapply item_at_accepted; eauto.
    + rewrite filter_cons_False by done. cbn [ok_item]. apply IH.
Qed.

Lemma skip_reads_0 elems w : individually (skip_reads 0 w) elems = individually w elems.
Proof. apply individually_ext; simpl; [done | lia]. Qed.

Lemma parse_items_ok xml_data w items w' :
  parse_items xml_data w = (Ok items, w') ->
  items = omap ok_item (individually w (feed_entries xml_data))
  /\ items <> [].
Proof.
  destruct (parse_items_run xml_data w) as [w'' ->].
  unfold feed_entries, feed_channel.
  destruct (etree_fromstring xml_data) as [root|]; [|done]. simpl.
  destruct (find root (lit "channel")) as [channel|]; [|done].
  destruct (omap _ _); [done|]. by intros [= <- _].
Qed.

(** C4: [parse_items] raises the invalid-XML error exactly when lxml rejects
    the bytes, the missing-channel error exactly when the parsed root has no
    channel child, and otherwise goes through every item entry, dropping
    those on which [from_rss_item] raises and keeping the others in feed
    order: it raises the no-valid-items error exactly when none is kept (be
    it that there was no entry or that all of them failed) and returns the
    kept items exactly when there is one. *)
Theorem parse_items_outcomes xml_data w :
  let r := (parse_items xml_data w).1 in
  (r = Raise InvalidXML <-> etree_fromstring xml_data = None)
  /\ (r = Raise MissingChannel <->
      exists root, etree_fromstring xml_data = Some root
                   /\ find root (lit "channel") = None)
  /\ (r = Raise NoValidItems <->
      exists channel, feed_channel xml_data = Some channel
        /\ omap ok_item (individually w (findall channel (lit "item"))) = [])
  /\ (forall items, r = Ok items <->
      exists channel, feed_channel xml_data = Some channel
        /\ items = omap ok_item (individually w (findall channel (lit "item")))
        /\ items <> []).
Proof.
  cbv zeta. destruct (parse_items_run xml_data w) as [w' ->]. simpl.
  unfold feed_channel.
  destruct (etree_fromstring xml_data) as [root|]; simpl.
  2: { repeat split; try done; by intros (? & ? & _). }
  destruct (find root (lit "channel")) as [channel|] eqn:Ech.
  2: { repeat split; try done; try (by intros (? & ? & _)).
       intros _. by exists root. }
  destruct (omap ok_item _) as [|x l] eqn:Eo.
  - repeat split; try done.
    + intros (? & [= <-] & ?). congruence.
    + intros _. exists channel. by rewrite Eo.
    + intros (? & [= <-] & -> & Hne). by rewrite Eo in Hne.
  - repeat split; try done.
    + intros (? & [= <-] & ?). congruence.
    + intros (? & [= <-] & Hnil). by rewrite Eo in Hnil.
    + intros [= <-]. exists channel. by rewrite Eo.
    + intros (? & [= <-] & -> & _). by rewrite Eo.
Qed.


(** C7, as the code has it: two runs of [parse_items] on the same bytes
    return, one for each accepted entry and in the same order, items with
    equal ids, titles, links, descriptions, categories, GUIDs and sources.
    The publication time stamp of an item is what [dateutil] makes of the
    pubDate text of its entry, given the clock reading [dateutil] takes the
    missing date fields from; an item whose entry has no pubDate text, or one
    that [dateutil] rejects, carries the clock reading with which its run
    began the entry. So the two time stamps are equal wherever [dateutil]
    reads the pubDate to the same date in both runs, as it does for a text
    that states a complete date. Which clock readings these are depends on
    the entries only: an entry takes two readings when it has a pubDate text
    and one when it has none ([positions]). *)
Theorem parse_items_twice xml_data w1 w2 items1 items2 w1' w2' :
  parse_items xml_data w1 = (Ok items1, w1') ->
  parse_items xml_data w2 = (Ok items2, w2') ->
  Forall3 (fun ek x y =>
             let e := ek.1 in
             let date1 := entry_pubdate (reading w1 (S ek.2)) e in
             let date2 := entry_pubdate (reading w2 (S ek.2)) e in
             same_content x y
             /\ published_at x
                = match date1 with Some d => d | None => reading w1 ek.2 end
             /\ published_at y
                = match date2 with Some d => d | None => reading w2 ek.2 end
             /\ (is_Some date1 -> date1 = date2 ->
                 published_at x = published_at y))
          (filter (fun ek => accepted ek.1)
                  (positions 0 (feed_entries xml_data)))
          items1 items2.
Proof.
  intros [-> _]%parse_items_ok [-> _]%parse_items_ok.
  rewrite <- (skip_reads_0 _ w1), <- (skip_reads_0 _ w2).
  eapply Forall3_impl; [apply survivors_twice|].
  intros [e k] x y (Hs & Hx & Hy). cbn [fst snd] in *. cbv zeta.
  split; [done|]. rewrite Hx, Hy.
  split; [by destruct (entry_pubdate _ e)|].
  split; [by destruct (entry_pubdate _ e)|].
  intros [d Hd] Heq. by rewrite <- Heq, Hd.
Qed.

(** C3, as the code has it: the id of a parsed item is the trimmed GUID of
    its entry when that is not empty, and otherwise the SHA-1 hex digest of
    the UTF-8 bytes of the trimmed title, a bar and the trimmed resolved
    link; two items without usable GUID whose trimmed titles and trimmed
    resolved links are equal have equal ids. *)
Theorem item_id_derivation e w x w' :
  from_rss_item e BASE_URL w = (Ok x, w') ->
  id_rule e x
  /\ forall e2 w2 y w2',
       from_rss_item e2 BASE_URL w2 = (Ok y, w2') ->
       usable_guid e = None -> usable_guid e2 = None ->
       strip (title x) = strip (title y) ->
       strip (entry_link e) = strip (entry_link e2) ->
       id x = id y.
Proof.
  assert (Hrule : forall e w x w',
            from_rss_item e BASE_URL w = (Ok x, w') -> id_rule e x).
  { clear. intros e w x w'. rewrite from_rss_item_run. intros [= Hx _].
    revert Hx. unfold item_at, entry_id, id_rule, usable_guid.
    destruct (entry_guid e) as [g|]; simpl.
    - unfold generate_stable_id.
      destruct (strip g) as [|c g'] eqn:Eg; simpl.
      + unfold sha1_title_link.
        destruct (utf8_encode _) as [data|] eqn:Eu; [|done].
        destruct (any_url _); [|done]. intros [= <-]. simpl. eauto.
      + rewrite <- Eg, strip_idemp, Eg. simpl.
        destruct (any_url _); [|done]. by intros [= <-].
    - unfold sha1_title_link.
      destruct (utf8_encode _) as [data|] eqn:Eu; [|done].
      destruct (any_url _); [|done]. intros [= <-]. simpl. eauto. }
  intros Hx. split; [by eapply Hrule|].
  intros e2 w2 y w2' Hy Hg1 Hg2 Ht Hl.
  apply Hrule in Hx, Hy. unfold id_rule in Hx, Hy.
  rewrite Hg1 in Hx. rewrite Hg2 in Hy.
  destruct Hx as (d1 & Hd1 & ->), Hy as (d2 & Hd2 & ->).
  rewrite Ht, Hl in Hd1. congruence.
Qed.

End ParserFacts.

(** ** Sorting by score *)

Lemma insert_by_score_perm x l : insert_by_score x l ≡ₚ x :: l.
Proof.
  induction l as [|y l IH]; simpl; [done|].
  destruct (y.1 <=? x.1); [done|]. rewrite IH. apply Permutation_swap.
Qed.

Lemma sort_by_score_perm l : sort_by_score l ≡ₚ l.
Proof.
  induction l as [|x l IH]; simpl; [done|].
  by rewrite insert_by_score_perm, IH.
Qed.

Lemma insert_by_score_sorted x l :
  StronglySorted score_desc l -> StronglySorted score_desc (insert_by_score x l).
Proof.
  induction 1 as [|y l Hl IH Hy]; simpl.
  - repeat constructor.
  - destruct (Z.leb_spec (y.1) (x.1)) as [Hle|Hlt].
    + constructor; [by constructor|]. constructor; [done|].
      eapply Forall_impl; [exact Hy|]. unfold score_desc. intros; lia.
    + constructor; [done|]. rewrite insert_by_score_perm.
      constructor; [unfold score_desc; lia | done].
Qed.

Lemma sort_by_score_sorted l : StronglySorted score_desc (sort_by_score l).
Proof.
  induction l as [|x l IH]; simpl; [constructor|].
  by apply insert_by_score_sorted.
Qed.

(** Stability: the pairs of one score keep their order. *)
Lemma insert_by_score_stable s x l :
  filter (fun p => p.1 = s) (insert_by_score x l)
  = filter (fun p => p.1 = s) (x :: l).
Proof.
  induction l as [|y l IH]; simpl; [done|].
  destruct (Z.leb_spec (y.1) (x.1)) as [Hle|Hlt]; [done|].
  rewrite (filter_cons _ y), IH, !(filter_cons _ x), !(filter_cons _ y).
  repeat case_decide; try done. lia.
Qed.

Lemma sort_by_score_stable s l :
  filter (fun p => p.1 = s) (sort_by_score l) = filter (fun p => p.1 = s) l.
Proof.
  induction l as [|x l IH]; simpl; [done|].
  by rewrite insert_by_score_stable, !(filter_cons _ x), IH.
Qed.

(** A stable descending sort has one possible result. *)
Lemma sort_by_score_unique l l' :
  StronglySorted score_desc l' ->
  (forall s, filter (fun p => p.1 = s) l' = filter (fun p => p.1 = s) l) ->
  l' = sort_by_score l.
Proof.
  intros Hs' Hf'.
  assert (Hf : forall s, filter (fun p => p.1 = s) l'
                         = filter (fun p => p.1 = s) (sort_by_score l)).
  { intros s. by rewrite Hf', sort_by_score_stable. }
  clear Hf'. pose proof (sort_by_score_sorted l) as Hs.
  revert Hs Hf. generalize (sort_by_score l). clear l. intros l.
  revert l. induction Hs' as [|x a Ha IH Hx]; intros l Hl Hf.
  - destruct l as [|y b]; [done|]. specialize (Hf (y.1)).
    rewrite filter_cons_True in Hf by done. done.
  - destruct Hl as [|y b Hb Hy].
    { specialize (Hf (x.1)). rewrite filter_cons_True in Hf by done. done. }
    assert (Hxy : x.1 = y.1).
    { apply Z.le_antisymm.
      - assert (Hin : x ∈ y :: b).
        { apply (list_elem_of_filter (fun p => p.1 = x.1)).
          rewrite <- Hf, filter_cons_True by done. left. }
        apply elem_of_cons in Hin as [->|Hin]; [done|].
        rewrite Forall_forall in Hy. by apply Hy.
      - assert (Hin : y ∈ x :: a).
        { apply (list_elem_of_filter (fun p => p.1 = y.1)).
          rewrite Hf, filter_cons_True by done. left. }
        apply elem_of_cons in Hin as [->|Hin]; [done|].
        rewrite Forall_forall in Hx. by apply Hx. }
    pose proof (Hf (x.1)) as Hf0.
    rewrite filter_cons_True in Hf0 by done.
    rewrite (filter_cons_True _ y) in Hf0 by done.
    injection Hf0 as -> Hrest. f_equal. apply IH; [done|].
    intros s. destruct (decide (y.1 = s)) as [<-|Hne]; [done|].
    specialize (Hf s). by rewrite !filter_cons_False in Hf by done.
Qed.

(** ** Search *)

Lemma slice_to_nonneg {T} (l : list T) limit :
  0 <= limit -> slice_to l limit = take (Z.to_nat limit) l.
Proof. intros Hl. unfold slice_to. by rewrite (proj2 (Z.leb_le 0 limit) Hl). Qed.

Lemma slice_to_prefix {T} (l : list T) limit : slice_to l limit `prefix_of` l.
Proof. unfold slice_to. destruct (0 <=? limit); apply prefix_take. Qed.

Lemma filter_prefix {T} (P : T -> Prop) `{forall x, Decision (P x)} l1 l2 :
  l1 `prefix_of` l2 -> filter P l1 `prefix_of` filter P l2.
Proof. intros [k ->]. rewrite filter_app. by apply prefix_app_r. Qed.

Section SearchFacts.
Context `{Platform}.

Lemma score_categories q cats acc :
  fold_left
    (fun score category =>
       if contains (str_lower category) q then score + 2 else score) cats acc
  = acc + 2 * Z.of_nat
            (length (filter (fun c => contains (str_lower c) q = true) cats)).
Proof.
  revert acc. induction cats as [|c cats IH]; intros acc; simpl; [lia|].
  rewrite IH, filter_cons. destruct (contains (str_lower c) q) eqn:E.
  - rewrite decide_True by done. simpl. lia.
  - rewrite decide_False by done. done.
Qed.

(** The score the code accumulates is the relevance of the specification. *)
Lemma _score_item_relevance item q : _score_item item q = relevance item q.
Proof.
  unfold _score_item, relevance. rewrite score_categories.
  destruct (contains (str_lower (title item)) q);
    destruct (contains (str_lower (default [] (description item))) q); lia.
Qed.

Lemma score_items_filter items q :
  score_items items q = scored q <$> filter (fun it => 0 < relevance it q) items.
Proof.
  unfold score_items.
  enough (Hgen : forall acc,
    fold_left
      (fun scored_items item =>
         let score := _score_item item q in
         if 0 <? score then scored_items ++ [(score, item)] else scored_items)
      items acc
    = acc ++ (scored q <$> filter (fun it => 0 < relevance it q) items)).
  { by rewrite Hgen. }
  induction items as [|it items IH]; intros acc; simpl.
  - by rewrite app_nil_r.
  - rewrite IH, filter_cons, _score_item_relevance.
    destruct (Z.ltb_spec 0 (relevance it q)).
    + rewrite decide_True by done. by rewrite <- app_assoc.
    + rewrite decide_False by lia. done.
Qed.

Lemma ranked_scored items q :
  sort_by_score (score_items items q) = scored q <$> ranked items q.
Proof.
  unfold ranked.
  assert (Hall : Forall (fun p => p = scored q p.2)
                        (sort_by_score (score_items items q))).
  { apply Forall_forall. intros p Hp.
    rewrite sort_by_score_perm, score_items_filter in Hp.
    apply list_elem_of_fmap in Hp as (it & -> & _). done. }
  induction Hall as [|p l Hp _ IH]; [done|]. csimpl. by rewrite <- Hp, <- IH.
Qed.

Lemma filter_scored q s (l : list PressItem) :
  filter (fun p : Z * PressItem => p.1 = s) (scored q <$> l)
  = scored q <$> filter (fun it => relevance it q = s) l.
Proof.
  induction l as [|it l IH]; [done|]. csimpl.
  rewrite !filter_cons, IH. simpl. by repeat case_decide.
Qed.

Lemma scored_inj q (l1 l2 : list PressItem) : scored q <$> l1 = scored q <$> l2 -> l1 = l2.
Proof.
  intros Heq. apply (f_equal (fmap snd)) in Heq.
  by rewrite <- !list_fmap_compose, !list_fmap_id in Heq.
Qed.

Lemma ranked_perm items q :
  ranked items q ≡ₚ filter (fun it => 0 < relevance it q) items.
Proof.
  unfold ranked. rewrite sort_by_score_perm, score_items_filter.
  by rewrite <- list_fmap_compose, list_fmap_id.
Qed.

Lemma ranked_sorted items q :
  StronglySorted (fun a b => relevance b q <= relevance a q) (ranked items q).
Proof.
  pose proof (sort_by_score_sorted (score_items items q)) as Hs.
  rewrite ranked_scored in Hs. revert Hs. generalize (ranked items q).
  induction l as [|x l IH]; [constructor|]. csimpl. intros Hs.
  apply StronglySorted_inv in Hs as [Hl Hx]. constructor; [by apply IH|].
  rewrite Forall_fmap in Hx. exact Hx.
Qed.

Lemma ranked_stable items q s :
  filter (fun it => relevance it q = s) (ranked items q)
  = filter (fun it => relevance it q = s)
           (filter (fun it => 0 < relevance it q) items).
Proof.
  apply (scored_inj q). rewrite <- !filter_scored, <- ranked_scored.
  by rewrite sort_by_score_stable, score_items_filter.
Qed.

Lemma search_in_empty items query limit :
  strip (str_lower query) = [] ->
  search_in items query limit = slice_to items limit.
Proof. unfold search_in. by intros ->. Qed.

Lemma search_in_ranked items query limit :
  strip (str_lower query) <> [] ->
  search_in items query limit
  = slice_to (ranked items (strip (str_lower query))) limit.
Proof.
  unfold search_in, ranked. destruct (strip (str_lower query)); [done|].
  intros _. simpl. unfold slice_to. rewrite length_fmap.
  destruct (0 <=? limit); by rewrite fmap_take.
Qed.

(** C2: once the snapshot is loaded, a search with a limit that is not
    negative returns, for a query that is empty after lower-casing and
    trimming, the first [limit] items of the snapshot in snapshot order, and
    otherwise the first [limit] items of a list that holds exactly the items
    of positive relevance, in descending order of relevance; the relevance is
    3 for the query occurring in the lower-cased title, plus 2 for every
    category whose lower-cased text contains it, plus 1 for the lower-cased
    description containing it, and it is the score the code computes. *)
Theorem search_items_ranking self w items self' w' query limit :
  load_items_cached self w = (Ok items, self', w') ->
  0 <= limit ->
  let q := strip (str_lower query) in
  exists result,
    search_items self query limit w = (Ok result, self', w')
    /\ (q = [] -> result = take (Z.to_nat limit) items)
    /\ (q <> [] ->
        exists best_first,
          result = take (Z.to_nat limit) best_first
          /\ best_first ≡ₚ filter (fun it => 0 < relevance it q) items
          /\ StronglySorted (fun a b => relevance b q <= relevance a q)
                            best_first)
    /\ (forall it, _score_item it q = relevance it q)
    /\ (forall s, contains s q = true <-> substring q s).
Proof.
  intros Hload Hlimit q. exists (search_in items query limit).
  unfold search_items. rewrite Hload. split; [done|].
  split; [|split; [|split]].
  - intros Hq. by rewrite search_in_empty, slice_to_nonneg.
  - intros Hq. exists (ranked items q). split; [|split].
    + by rewrite search_in_ranked, slice_to_nonneg.
    + apply ranked_perm.
    + apply ranked_sorted.
  - intros it. apply _score_item_relevance.
  - intros s. apply contains_spec.
Qed.

(** C10: for a query that is not empty after lower-casing and trimming, the
    items of any one relevance appear in the search result in the order they
    have in the snapshot, the earliest first (the result's items of that
    relevance are a prefix of the snapshot's), and every search that loads
    the same snapshot with the same query and limit returns the same
    result. *)
Theorem search_items_stable self w items self' w' query limit :
  load_items_cached self w = (Ok items, self', w') ->
  strip (str_lower query) <> [] ->
  let q := strip (str_lower query) in
  exists result,
    search_items self query limit w = (Ok result, self', w')
    /\ (forall s,
          filter (fun it => relevance it q = s) result
          `prefix_of` filter (fun it => relevance it q = s) items)
    /\ (forall self2 w2 self2' w2',
          load_items_cached self2 w2 = (Ok items, self2', w2') ->
          search_items self2 query limit w2 = (Ok result, self2', w2')).
Proof.
  intros Hload Hq q. exists (search_in items query limit).
  unfold search_items. rewrite Hload. split; [done|]. split.
  - intros s. rewrite search_in_ranked by done. fold q.
    trans (filter (fun it => relevance it q = s) (ranked items q)).
    { apply filter_prefix, slice_to_prefix. }
    rewrite ranked_stable, list_filter_filter.
    destruct (decide (0 < s)) as [Hs|Hs].
    + erewrite list_filter_iff; [done|]. intros it. simpl. lia.
    + rewrite (elem_of_nil_inv (filter _ items)); [apply prefix_nil|].
      intros it [? ?]%list_elem_of_filter. lia.
  - intros self2 w2 self2' w2' ->. done.
Qed.

End SearchFacts.

(** ** Categories *)

Lemma categories_union_elem (items : list PressItem) (acc : gset str) c :
  c ∈ fold_left (fun acc item => acc ∪ list_to_set (categories item)) items acc
  <-> c ∈ acc \/ exists it, it ∈ items /\ c ∈ categories it.
Proof.
  revert acc. induction items as [|it items IH]; intros acc; simpl.
  - split; [by left|]. intros [?|(it & Hit & _)]; [done|].
    by apply not_elem_of_nil in Hit.
  - rewrite IH, elem_of_union, elem_of_list_to_set. split.
    + intros [[?|?]|(it' & Hit' & ?)].
      * by left.
      * right. exists it. split; [left|done].
      * right. exists it'. split; [by right|done].
    + intros [?|(it' & Hit' & ?)].
      * by left; left.
      * apply elem_of_cons in Hit' as [->|Hit'].
        -- by left; right.
        -- right. by exists it'.
Qed.

(** C9: without a snapshot [get_categories] returns the empty list; with
    one it returns a list without repetition, ascending in the order of
    strings, whose members are exactly the categories of the items of the
    snapshot, and that is the only such list. *)
Theorem get_categories_sorted_union self :
  match _cached_items self with
  | None => get_categories self = []
  | Some items =>
      let in_snapshot c := exists it, it ∈ items /\ c ∈ categories it in
      NoDup (get_categories self)
      /\ StronglySorted str_le (get_categories self)
      /\ (forall c, c ∈ get_categories self <-> in_snapshot c)
      /\ (forall l, NoDup l -> StronglySorted str_le l ->
                    (forall c, c ∈ l <-> in_snapshot c) ->
                    l = get_categories self)
  end.
Proof.
  unfold get_categories. destruct (_cached_items self) as [items|]; [|done].
  cbv zeta.
  set (cats := fold_left _ items ∅).
  assert (Hnd : NoDup (merge_sort str_le (elements cats))).
  { rewrite merge_sort_Permutation. apply NoDup_elements. }
  assert (Hin : forall c, c ∈ merge_sort str_le (elements cats)
                          <-> exists it, it ∈ items /\ c ∈ categories it).
  { intros c. rewrite merge_sort_Permutation, elem_of_elements.
    unfold cats. rewrite categories_union_elem. split; [|by right].
    intros [Hc|?]; [|done]. by apply not_elem_of_empty in Hc. }
  split; [done|]. split; [apply StronglySorted_merge_sort; apply _|].
  split; [done|].
  intros l Hl Hs Hm. apply (StronglySorted_unique str_le); [done| |].
  - apply StronglySorted_merge_sort; apply _.
  - apply NoDup_Permutation; [done..|]. intros c. by rewrite Hm, Hin.
Qed.

(** ** The cache *)

Section CacheFacts.
Context `{Platform}.

Lemma cache_valid_fresh self now snap t0 :
  _cached_items self = Some snap -> _last_fetch self = Some t0 ->
  (now - t0 < inject_Z (cache_ttl self))%Q ->
  cache_valid self now = Some snap.
Proof.
  intros Hc Hl Hage. unfold cache_valid. rewrite Hc, Hl.
  destruct (Qlt_le_dec _ _) as [_|Hge]; [done|].
  exfalso. by eapply Qlt_not_le.
Qed.

(** A fetch that raises makes the whole refresh raise the same error. *)
Lemma fetch_and_parse_fetch_fails self w e w2 :
  fetch_raw self w = (Raise e, w2) -> fetch_and_parse self w = (Raise e, w2).
Proof. intros Hf. unfold fetch_and_parse, mbind, M_bind. by rewrite Hf. Qed.

(** C1: when the cache does not answer and the refresh (the fetch with its
    retries, then the parse) raises, [load_items_cached] returns the prior
    snapshot and leaves the client as it was if there is one, and raises the
    error of the refresh if there is none. *)
Theorem load_items_cached_refresh_fails self w e w2 :
  cache_valid self (clock w (clock_reads w)) = None ->
  fetch_and_parse self (tick w) = (Raise e, w2) ->
  match _cached_items self with
  | Some stale => load_items_cached self w = (Ok stale, self, w2)
  | None => load_items_cached self w = (Raise e, self, w2)
  end.
Proof.
  intros Hstale Hfail. unfold load_items_cached, read_clock. fold (tick w).
  rewrite Hstale, Hfail. by destruct (_cached_items self).
Qed.

(** C8: with a snapshot whose age is below the TTL at the clock readings of
    two consecutive calls, both calls of [load_items_cached] return that
    snapshot and leave the client as it was, and the world after them
    differs from the one before only by the two clock readings: no GET is
    issued and nothing sleeps. *)
Theorem load_items_cached_fresh_twice self w snap t0 :
  _cached_items self = Some snap -> _last_fetch self = Some t0 ->
  (clock w (clock_reads w) - t0 < inject_Z (cache_ttl self))%Q ->
  (clock w (S (clock_reads w)) - t0 < inject_Z (cache_ttl self))%Q ->
  load_items_cached self w = (Ok snap, self, tick w)
  /\ load_items_cached self (tick w) = (Ok snap, self, tick (tick w))
  /\ requests (tick (tick w)) = requests w
  /\ slept (tick (tick w)) = slept w.
Proof.
  intros Hc Hl Hage1 Hage2. unfold load_items_cached, read_clock.
  fold (tick w). fold (tick (tick w)). simpl.
  rewrite (cache_valid_fresh self _ snap t0) by done.
  rewrite (cache_valid_fresh self _ snap t0) by done.
  done.
Qed.

End CacheFacts.

(** ** The retry decorator and [fetch_raw] *)

(** When the next [m + 1] GETs all raise transport errors, a wrapper with
    [i + m + 1] attempts that has [m + 1] of them left makes these GETs,
    sleeps [delay * backoff_factor ^ attempt] after each attempt but the
    last, and raises the last error. *)
Lemma retry_loop_cons {A} n delay backoff_factor exceptions (func : M A)
    attempt rest last w :
  retry_loop n delay backoff_factor exceptions func (attempt :: rest) last w
  = match func w with
    | (Ok v, w') => (Ok (Some v), w')
    | (Raise e, w') =>
        if exceptions e then
          if attempt <? n - 1 then
            retry_loop n delay backoff_factor exceptions func rest (Some e)
              (sleep (delay * backoff_factor ^ attempt)%Q w').2
          else (Raise e, w')
        else (Raise e, w')
    end.
Proof. reflexivity. Qed.

Lemma retry_loop_exhausts delay backoff_factor (errs : nat -> exn) m :
  forall i last w,
    (forall j, (j < S m)%nat ->
       http w (requests w + j) = Raise (errs (i + j)%nat)
       /\ transport_errors (errs (i + j)%nat) = true) ->
    retry_loop (Z.of_nat (i + S m)) delay backoff_factor transport_errors
               http_get (Z.of_nat <$> seq i (S m)) last w
    = (Raise (errs (i + m)%nat),
       after_requests (S m)
         ((fun k => (delay * backoff_factor ^ Z.of_nat k)%Q) <$> seq i m) w).
Proof.
  induction m as [|m IH]; intros i last w Hall;
    destruct (Hall 0%nat ltac:(lia)) as [Hget Hexc];
    rewrite !Nat.add_0_r in Hget; rewrite Nat.add_0_r in Hexc;
    change (seq i (S ?k)) with (i :: seq (S i) k);
    rewrite fmap_cons, retry_loop_cons; unfold http_get at 1;
    rewrite Hget, Hexc.
  - rewrite (proj2 (Z.ltb_ge _ _)) by lia. rewrite Nat.add_0_r.
    unfold after_requests. cbn [fmap list_fmap seq].
    by rewrite app_nil_r, Nat.add_1_r.
  - rewrite (proj2 (Z.ltb_lt _ _)) by lia.
    replace (Z.of_nat (i + S (S m))) with (Z.of_nat (S i + S m)) by lia.
    rewrite IH.
    + unfold after_requests, sleep.
      cbn [http clock requests clock_reads slept stdout fst snd].
      change (seq i (S m)) with (i :: seq (S i) m). rewrite fmap_cons.
      replace (S i + m)%nat with (i + S m)%nat by lia.
      replace (S (requests w) + S m)%nat with (requests w + S (S m))%nat by lia.
      by rewrite <- app_assoc.
    + intros j Hj. unfold sleep. cbn [http requests fst snd].
      replace (S (requests w) + j)%nat with (requests w + S j)%nat by lia.
      replace (S i + j)%nat with (i + S j)%nat by lia.
      apply Hall. lia.
Qed.

(** [fetch_raw] makes three attempts, whatever the client was configured
    with: after three transport errors it has slept 1 and 2 seconds and
    raises the third error. *)
Lemma fetch_raw_exhausts self w (errs : nat -> exn) :
  (forall j, (j < 3)%nat ->
     http w (requests w + j) = Raise (errs j)
     /\ transport_errors (errs j) = true) ->
  fetch_raw self w = (Raise (errs 2%nat), after_requests 3 [1; 2]%Q w).
Proof.
  intros Hall. unfold fetch_raw, retry_on_failure, fetch_raw_body.
  exact (retry_loop_exhausts 1 2 errs 2 0 None w Hall).
Qed.

(** A GET that succeeds ends the loop at once, and an error that is no
    transport error is raised at once, without sleeping. *)
Lemma fetch_raw_succeeds self w data :
  http w (requests w) = Ok data ->
  fetch_raw self w = (Ok (Some data), after_requests 1 [] w).
Proof.
  intros Hget. unfold fetch_raw, retry_on_failure, fetch_raw_body.
  change (range 3) with (0 :: [1; 2]).
  rewrite retry_loop_cons. unfold http_get. rewrite Hget.
  unfold after_requests. by rewrite app_nil_r, Nat.add_1_r.
Qed.

Lemma fetch_raw_not_retried self w e :
  http w (requests w) = Raise e -> transport_errors e = false ->
  fetch_raw self w = (Raise e, after_requests 1 [] w).
Proof.
  intros Hget Hexc. unfold fetch_raw, retry_on_failure, fetch_raw_body.
  change (range 3) with (0 :: [1; 2]).
  rewrite retry_loop_cons. unfold http_get. rewrite Hget, Hexc.
  unfold after_requests. by rewrite app_nil_r, Nat.add_1_r.
Qed.

(** C6, at a client configured with five retries and a network that is
    down: [fetch_raw] stops after three GETs and two sleeps, of 1 and 2
    seconds, and raises the transport error. *)
Theorem fetch_raw_ignores_max_retries :
  let self := RssClient_init Sample.no_env None None (Some 5) in
  let w := Sample.world_at 1000 Sample.down in
  max_retries self = 5
  /\ (fetch_raw self w).1 = Raise (RequestError "down")
  /\ requests (fetch_raw self w).2 = 3%nat
  /\ slept (fetch_raw self w).2 = [1; 2]%Q.
Proof. cbv zeta. repeat split. Qed.

(** ** [sanitize_string] *)

Lemma split_from_words s : forall word,
  Forall (fun c => is_space c = false) word ->
  Forall is_word (split_from word s).
Proof.
  induction s as [|c s IH]; intros word Hword; simpl.
  - destruct word; simpl; [constructor|].
    constructor; [by split | constructor].
  - destruct (is_space c) eqn:Ec.
    + destruct word; simpl; [by apply IH|].
      constructor; [by split | by apply IH].
    + apply IH. apply Forall_app. by repeat constructor.
Qed.

Lemma split_from_chars (P : char -> Prop) s : forall word,
  Forall P word -> Forall P s -> Forall (Forall P) (split_from word s).
Proof.
  induction s as [|c s IH]; intros word Hword Hs; simpl.
  - destruct word; simpl; [constructor | constructor; [done | constructor]].
  - apply Forall_cons in Hs as [Hc Hs]. destruct (is_space c).
    + destruct word; simpl; [by apply IH|].
      constructor; [done | by apply IH].
    + apply IH; [|done]. apply Forall_app. by repeat constructor.
Qed.

Lemma split_from_word w : forall word rest,
  Forall (fun c => is_space c = false) w ->
  split_from word (w ++ rest) = split_from (word ++ w) rest.
Proof.
  induction w as [|c w IH]; intros word rest Hw; simpl.
  - by rewrite app_nil_r.
  - apply Forall_cons in Hw as [-> Hw]. rewrite IH by done.
    by rewrite <- app_assoc.
Qed.

(** Splitting what was joined with single spaces gives the words back. *)
Lemma split_from_space word s :
  word <> [] -> split_from word (32%N :: s) = word :: split_from [] s.
Proof. intros Hne. simpl. by destruct word. Qed.

Lemma str_join_cons w w2 ws :
  str_join (lit " ") (w :: w2 :: ws)
  = w ++ 32%N :: str_join (lit " ") (w2 :: ws).
Proof. reflexivity. Qed.

Lemma str_split_join ws :
  Forall is_word ws -> str_split (str_join (lit " ") ws) = ws.
Proof.
  unfold str_split. induction 1 as [|w ws [Hne Hw] Hws IH]; [done|].
  destruct ws as [|w2 ws].
  - simpl. rewrite <- (app_nil_r w) at 1. rewrite split_from_word by done.
    simpl. by destruct w.
  - rewrite str_join_cons, split_from_word by done.
    rewrite app_nil_l, split_from_space by done. by rewrite IH.
Qed.

Lemma str_join_chars (P : char -> Prop) ws :
  P 32%N -> Forall (Forall P) ws -> Forall P (str_join (lit " ") ws).
Proof.
  intros Hsp. induction 1 as [|w ws Hw Hws IH]; [constructor|].
  destruct ws as [|w2 ws]; [done|].
  rewrite str_join_cons. apply Forall_app. split; [done|]. by constructor.
Qed.

Lemma filter_all {A} (p : A -> bool) l :
  Forall (fun x => p x = true) l -> List.filter p l = l.
Proof.
  induction 1 as [|x l Hx _ IH]; simpl; [done|]. by rewrite Hx, IH.
Qed.

Lemma filter_Forall {A} (p : A -> bool) l :
  Forall (fun x => p x = true) (List.filter p l).
Proof.
  induction l as [|x l IH]; simpl; [constructor|].
  destruct (p x) eqn:E; [by constructor | done].
Qed.

Lemma strip_fixed s :
  match s with [] => True | c :: _ => is_space c = false end ->
  match reverse s with [] => True | c :: _ => is_space c = false end ->
  strip s = s.
Proof.
  intros Hhd Hlast. unfold strip, lstrip, rstrip.
  rewrite (drop_while_fixed _ s) by done.
  rewrite (drop_while_fixed _ (reverse s)) by done.
  apply reverse_involutive.
Qed.

Lemma str_join_ends ws :
  Forall is_word ws ->
  let r := str_join (lit " ") ws in
  match r with [] => True | c :: _ => is_space c = false end
  /\ match reverse r with [] => True | c :: _ => is_space c = false end.
Proof.
  cbv zeta. induction 1 as [|w ws [Hne Hw] Hws [_ IH]]; [done|].
  destruct ws as [|w2 ws].
  - simpl. split.
    + destruct w; [done|]. by apply Forall_cons in Hw as [? _].
    + destruct (reverse w) as [|c r] eqn:Er; [done|].
      assert (Hin : c ∈ w) by (apply elem_of_reverse; rewrite Er; left).
      rewrite Forall_forall in Hw. by apply Hw.
  - rewrite str_join_cons. split.
    + destruct w; [done|]. by apply Forall_cons in Hw as [? _].
    + rewrite reverse_app, reverse_cons.
      destruct (reverse (str_join (lit " ") (w2 :: ws))) as [|c r] eqn:Er;
        [|done].
      apply (f_equal reverse) in Er. rewrite reverse_involutive in Er.
      apply Forall_cons in Hws as [[Hne2 _] _].
      exfalso. revert Er. destruct ws; simpl; [done|].
      destruct w2; done.
Qed.

(** What [sanitize_string] returns, for any text: words joined by single
    spaces. *)
Lemma sanitize_string_words text :
  exists ws,
    sanitize_string text = str_join (lit " ") ws
    /\ Forall is_word ws
    /\ Forall (Forall (fun c => negb (regex_class c) = true)) ws.
Proof.
  unfold sanitize_string. destruct text as [|c text]; simpl negb; cbv iota.
  - exists []. by repeat constructor.
  - eexists. split; [reflexivity|]. split.
    + apply split_from_words. constructor.
    + apply split_from_chars; [constructor | apply filter_Forall].
Qed.

Lemma split_from_nil s : forall word,
  split_from word s = [] <-> word = [] /\ Forall (fun c => is_space c = true) s.
Proof.
  induction s as [|c s IH]; intros word; simpl.
  - destruct word; simpl; split; try done.
    + by intros [? _].
  - destruct (is_space c) eqn:Ec.
    + destruct word; simpl.
      * rewrite IH. split; intros [? ?]; split; try done; [by constructor|].
        by eapply Forall_cons_1.
      * split; [done | by intros [? _]].
    + rewrite IH. split.
      * intros [Hw _]. by destruct word.
      * intros [_ Hs]. apply Forall_cons in Hs as [Hc _]. congruence.
Qed.

Lemma str_join_nil ws : Forall is_word ws -> str_join (lit " ") ws = [] -> ws = [].
Proof.
  destruct 1 as [|w ws [Hne _] _]; [done|].
  destruct ws; simpl; [done|]. by destruct w.
Qed.

Lemma filter_filter {A} (f g : A -> bool) l :
  List.filter f (List.filter g l) = List.filter (fun x => g x && f x) l.
Proof.
  induction l as [|x l IH]; simpl; [done|].
  destruct (g x); simpl; [|done]. destruct (f x); by rewrite IH.
Qed.

Lemma str_join_other_chars w ws :
  List.filter (fun c => negb (is_space c)) (str_join (lit " ") (w :: ws))
  = List.filter (fun c => negb (is_space c)) w
    ++ List.filter (fun c => negb (is_space c)) (str_join (lit " ") ws).
Proof.
  destruct ws as [|w2 ws]; [simpl; by rewrite app_nil_r|].
  rewrite str_join_cons, !List.filter_app. done.
Qed.

(** Splitting and joining loses white space only. *)
Lemma split_from_other_chars s : forall word,
  List.filter (fun c => negb (is_space c))
              (str_join (lit " ") (split_from word s))
  = List.filter (fun c => negb (is_space c)) (word ++ s).
Proof.
  induction s as [|c s IH]; intros word; cbn [split_from].
  - rewrite app_nil_r. by destruct word.
  - rewrite List.filter_app. cbn [List.filter].
    destruct (is_space c) eqn:Ec; cbn [negb].
    + destruct word as [|a word]; cbn [truthy].
      * by rewrite IH.
      * by rewrite str_join_other_chars, IH.
    + rewrite IH, !List.filter_app. cbn [List.filter]. rewrite Ec. cbn [negb].
      by rewrite <- app_assoc.
Qed.

(** X25: the text [sanitize_string] returns holds no character of the class
    that the regular expression removes, which is U+0000 to U+0008, U+000B,
    U+000C, U+000E to U+001F and U+007F: the control characters of ASCII
    other than tab, line feed and carriage return. It holds no white space
    but the plain space and neither starts nor ends with a space; it is
    empty exactly when every character of the input is in the class or is
    white space. Every other character is kept, in the order of the input:
    so are the control characters U+0080 to U+009F, which are not in the
    class (U+0085 apart, which is white space). *)
Theorem sanitize_string_clean text :
  let r := sanitize_string text in
  Forall (fun c => regex_class c = false /\ (is_space c = true -> c = 32%N)) r
  /\ strip r = r
  /\ (r = [] <->
      Forall (fun c => regex_class c = true \/ is_space c = true) text)
  /\ List.filter (fun c => negb (is_space c)) r
     = List.filter (fun c => negb (regex_class c) && negb (is_space c)) text
  /\ (forall c, (128 <= c <= 159)%N -> c <> 133%N ->
        regex_class c = false /\ is_space c = false).
Proof.
  cbv zeta. destruct (sanitize_string_words text) as (ws & Hr & Hws & Hctl).
  split; [|split; [|split; [|split]]].
  - rewrite Hr. apply str_join_chars.
    + split; [done|]. done.
    + rewrite Forall_forall in Hws, Hctl. apply Forall_forall. intros w Hin.
      destruct (Hws w Hin) as [_ Hsp]. pose proof (Hctl w Hin) as Hc.
      clear Hin. rewrite Forall_forall in Hsp, Hc. apply Forall_forall.
      intros c Hin. split.
      * specialize (Hc c Hin). by destruct (regex_class c).
      * rewrite (Hsp c Hin). done.
  - rewrite Hr. destruct (str_join_ends ws Hws) as [Hhd Hlast].
    by apply strip_fixed.
  - unfold sanitize_string. destruct text as [|c text]; [done|].
    simpl negb. cbv iota.
    set (cleaned := List.filter _ (c :: text)). split.
    + intros Hnil. apply str_join_nil in Hnil.
      2: { apply split_from_words. constructor. }
      apply split_from_nil in Hnil as [_ Hsp].
      apply Forall_forall. intros x Hx.
      destruct (regex_class x) eqn:Ex; [by left|]. right.
      rewrite Forall_forall in Hsp. apply Hsp. unfold cleaned.
      apply list_elem_of_In, filter_In. split; [by apply list_elem_of_In|].
      by rewrite Ex.
    + intros Hall. assert (Hsp : str_split cleaned = []).
      { apply split_from_nil. split; [done|]. apply Forall_forall.
        intros x Hx. unfold cleaned in Hx.
        apply list_elem_of_In, filter_In in Hx as [Hx Hc].
        apply list_elem_of_In in Hx. rewrite Forall_forall in Hall.
        destruct (Hall x Hx) as [Hctl'|?]; [|done].
        by rewrite Hctl' in Hc. }
      by rewrite Hsp.
  - unfold sanitize_string. destruct text as [|c text]; [done|].
    simpl negb. cbv iota. unfold str_split.
    by rewrite split_from_other_chars, app_nil_l, filter_filter.
  - intros c [Hlo Hhi] Hne. unfold regex_class, is_space.
    repeat match goal with
           | |- context [(?a <=? ?b)%N] =>
               destruct (N.leb_spec a b); try lia
           | |- context [(?a =? ?b)%N] =>
               destruct (N.eqb_spec a b); try lia
           end; done.
Qed.

(** X26: [sanitize_string] is idempotent. *)
Theorem sanitize_string_idempotent text :
  sanitize_string (sanitize_string text) = sanitize_string text.
Proof.
  destruct (sanitize_string_words text) as (ws & Hr & Hws & Hctl).
  rewrite Hr. unfold sanitize_string at 1.
  destruct (str_join (lit " ") ws) as [|c r] eqn:Ej; [done|].
  simpl negb. cbv iota. rewrite <- Ej.
  rewrite filter_all.
  - by rewrite str_split_join.
  - apply str_join_chars; [done | done].
Qed.

(** ** Dictionaries in insertion order *)

Section DictFacts.
Context {V : Type}.
Implicit Types (d : list (str * V)) (k : str) (v : V).

Lemma dict_get_None k d : dict_get k d = None <-> k ∉ dict_keys d.
Proof.
  induction d as [|[k' v'] d IH]; simpl.
  - split; [intros _; apply not_elem_of_nil | done].
  - rewrite not_elem_of_cons. destruct (decide (k = k')) as [->|Hne].
    + split; [done | by intros [? _]].
    + rewrite IH. split; [done | by intros [_ ?]].
Qed.

Lemma dict_get_elem k v d : dict_get k d = Some v -> (k, v) ∈ d.
Proof.
  induction d as [|[k' v'] d IH]; simpl; [done|].
  destruct (decide (k = k')) as [->|Hne].
  - intros [= ->]. left.
  - intros Hd. right. by apply IH.
Qed.

Lemma dict_get_setitem k v d : dict_get k (dict_setitem k v d) = Some v.
Proof.
  induction d as [|[k' v'] d IH]; simpl.
  - by rewrite decide_True.
  - destruct (decide (k = k')) as [->|Hne]; simpl.
    + by rewrite decide_True.
    + by rewrite decide_False.
Qed.

Lemma dict_get_setitem_ne k k' v d :
  k <> k' -> dict_get k' (dict_setitem k v d) = dict_get k' d.
Proof.
  intros Hne. induction d as [|[k2 v2] d IH]; simpl.
  - by rewrite decide_False.
  - destruct (decide (k = k2)) as [->|Hne2]; simpl.
    + by rewrite !decide_False.
    + destruct (decide (k' = k2)); [done | exact IH].
Qed.

Lemma dict_setitem_new k v d :
  k ∉ dict_keys d -> dict_setitem k v d = d ++ [(k, v)].
Proof.
  induction d as [|[k' v'] d IH]; simpl; [done|].
  rewrite not_elem_of_cons. intros [Hne Hnin].
  rewrite decide_False by done. by rewrite IH.
Qed.

Lemma dict_setitem_keys k v d :
  dict_keys (dict_setitem k v d)
  = if decide (k ∈ dict_keys d) then dict_keys d else dict_keys d ++ [k].
Proof.
  induction d as [|[k' v'] d IH]; cbn [dict_setitem].
  - rewrite decide_False by apply not_elem_of_nil. done.
  - destruct (decide (k = k')) as [->|Hne].
    + rewrite decide_True by left. done.
    + unfold dict_keys in *. rewrite !fmap_cons, IH. cbn [fst].
      destruct (decide (k ∈ fst <$> d)) as [Hin|Hnin].
      * rewrite decide_True by (by right). done.
      * rewrite decide_False; [done|]. rewrite not_elem_of_cons. done.
Qed.

Lemma dict_setitem_NoDup k v d :
  NoDup (dict_keys d) -> NoDup (dict_keys (dict_setitem k v d)).
Proof.
  intros Hnd. rewrite dict_setitem_keys. case_decide; [done|].
  apply NoDup_app. split; [done|]. split.
  - intros x Hx Hx'. apply list_elem_of_singleton in Hx' as ->. done.
  - apply NoDup_singleton.
Qed.

Lemma dict_setitem_length k v d :
  (length (dict_setitem k v d) <= S (length d))%nat.
Proof.
  induction d as [|[k' v'] d IH]; simpl; [lia|].
  destruct (decide (k = k')); simpl; lia.
Qed.

Lemma dict_del_subseteq k k' d :
  k' ∈ dict_keys (dict_del k d) -> k' ∈ dict_keys d.
Proof.
  induction d as [|[k2 v2] d IH]; simpl; [done|].
  destruct (decide (k = k2)) as [->|Hne]; simpl.
  - by right.
  - rewrite !elem_of_cons. intros [?|?]; [by left | right; by apply IH].
Qed.

Lemma dict_del_NoDup k d :
  NoDup (dict_keys d) -> NoDup (dict_keys (dict_del k d)).
Proof.
  induction d as [|[k2 v2] d IH]; simpl; [done|].
  intros [Hnin Hnd]%NoDup_cons. destruct (decide (k = k2)) as [->|Hne]; [done|].
  simpl. apply NoDup_cons. split; [|by apply IH].
  intros Hin. apply Hnin. by eapply dict_del_subseteq.
Qed.

Lemma dict_del_length k d :
  k ∈ dict_keys d -> S (length (dict_del k d)) = length d.
Proof.
  induction d as [|[k2 v2] d IH]; simpl.
  - by intros ?%not_elem_of_nil.
  - destruct (decide (k = k2)) as [->|Hne]; [done|].
    rewrite elem_of_cons. intros [?|Hin]; [done|]. simpl. by rewrite IH.
Qed.

Lemma dict_get_del k d :
  NoDup (dict_keys d) -> dict_get k (dict_del k d) = None.
Proof.
  induction d as [|[k2 v2] d IH]; simpl; [done|].
  intros [Hnin Hnd]%NoDup_cons. destruct (decide (k = k2)) as [->|Hne].
  - by apply dict_get_None.
  - simpl. rewrite decide_False by done. by apply IH.
Qed.

Lemma dict_get_del_ne k k' d :
  k <> k' -> dict_get k' (dict_del k d) = dict_get k' d.
Proof.
  intros Hne. induction d as [|[k2 v2] d IH]; simpl; [done|].
  destruct (decide (k = k2)) as [->|Hne2]; simpl.
  - by rewrite decide_False.
  - destruct (decide (k' = k2)); [done | exact IH].
Qed.

Lemma filter_keys_NoDup (p : str * V -> bool) d :
  NoDup (dict_keys d) -> NoDup (dict_keys (List.filter p d)).
Proof.
  induction d as [|e d IH]; simpl; [done|].
  intros [Hnin Hnd]%NoDup_cons. destruct (p e); [|by apply IH].
  simpl. apply NoDup_cons. split; [|by apply IH].
  intros Hin. apply Hnin. clear -Hin.
  apply list_elem_of_fmap in Hin as (x & -> & Hx).
  apply list_elem_of_In, filter_In in Hx as [Hx _].
  apply list_elem_of_fmap. exists x. split; [done|]. by apply list_elem_of_In.
Qed.

Lemma filter_length_le {A} (p : A -> bool) (l : list A) :
  (length (List.filter p l) <= length l)%nat.
Proof.
  induction l as [|x l IH]; simpl; [lia|]. destruct (p x); simpl; lia.
Qed.

End DictFacts.

(** The key [min] picks has a timestamp no later than any other, and is the
    first such key. *)
Lemma oldest_from_spec {V} (d : list (str * (V * Q))) : forall best,
  exists e, e ∈ best :: d /\ oldest_from best d = e.1
            /\ Forall (fun e' => (e.2.2 <= e'.2.2)%Q) (best :: d).
Proof.
  induction d as [|x d IH]; intros best; simpl.
  - exists best. split; [left|]. split; [done|].
    constructor; [apply Qle_refl | constructor].
  - destruct (Qlt_le_dec x.2.2 best.2.2) as [Hlt|Hle].
    + destruct (IH x) as (e & Hin & -> & Hall). exists e.
      split; [by right|]. split; [done|].
      apply Forall_cons in Hall as [Hx Hd].
      constructor; [|by constructor].
      eapply Qle_trans; [exact Hx|]. by apply Qlt_le_weak.
    + destruct (IH best) as (e & Hin & -> & Hall). exists e. split.
      * apply elem_of_cons in Hin as [->|Hin]; [left | right; by right].
      * split; [done|]. apply Forall_cons in Hall as [Hb Hd].
        constructor; [done|]. constructor; [|done].
        by eapply Qle_trans.
Qed.

(** The same, by position: [min] returns the first of the entries whose
    stamp is the smallest. The scan has [best] as its candidate, [pre] are
    the entries before it and [mid] those between it and the rest [d]. *)
Lemma oldest_from_first {V} (d : list (str * (V * Q))) : forall pre best mid,
  Forall (fun e => (best.2.2 < e.2.2)%Q) pre ->
  Forall (fun e => (best.2.2 <= e.2.2)%Q) mid ->
  exists before old after,
    pre ++ best :: mid ++ d = before ++ old :: after
    /\ oldest_from best d = old.1
    /\ Forall (fun e => (old.2.2 < e.2.2)%Q) before
    /\ Forall (fun e => (old.2.2 <= e.2.2)%Q) after.
Proof.
  induction d as [|x d IH]; intros pre best mid Hpre Hmid; cbn [oldest_from].
  - exists pre, best, mid. by rewrite app_nil_r.
  - destruct (Qlt_le_dec x.2.2 best.2.2) as [Hlt|Hle].
    + destruct (IH (pre ++ best :: mid) x [])
        as (before & old & after & Hsplit & Hold & Hbefore & Hafter).
      { apply Forall_app. split.
        - eapply Forall_impl; [exact Hpre|]. intros e He.
          eapply Qlt_trans; [exact Hlt | exact He].
        - constructor; [done|].
          eapply Forall_impl; [exact Hmid|]. intros e He.
          eapply Qlt_le_trans; [exact Hlt | exact He]. }
      { constructor. }
      exists before, old, after. split; [|done].
      rewrite <- Hsplit, <- app_assoc. done.
    + destruct (IH pre best (mid ++ [x]))
        as (before & old & after & Hsplit & Hold & Hbefore & Hafter).
      { done. }
      { apply Forall_app. split; [done|]. constructor; [done | constructor]. }
      exists before, old, after. split; [|done].
      rewrite <- Hsplit, <- app_assoc. done.
Qed.

Lemma dict_del_middle {V} (before after : list (str * V)) old :
  old.1 ∉ dict_keys before ->
  dict_del old.1 (before ++ old :: after) = before ++ after.
Proof.
  induction before as [|[k v] before IH]; cbn [app dict_del].
  - intros _. destruct old as [k v]. cbn [fst]. by rewrite decide_True.
  - unfold dict_keys. rewrite fmap_cons, not_elem_of_cons. cbn [fst].
    intros [Hne Hnin]. rewrite decide_False by done. f_equal. by apply IH.
Qed.

(** ** [TTLCache] *)

Section TTLCacheFacts.
Context {V : Type}.
Implicit Types (self : TTLCache.t V) (key : str) (value : V).

Lemma expired_false self now ts :
  TTLCache.expired self now ts = false
  <-> (now - ts < inject_Z (TTLCache.ttl self))%Q.
Proof.
  unfold TTLCache.expired. destruct (Qlt_le_dec _ _) as [Hlt|Hle].
  - done.
  - split; [done|]. intros Hlt. exfalso. by eapply Qlt_not_le.
Qed.

Lemma expired_true self now ts :
  TTLCache.expired self now ts = true
  <-> (inject_Z (TTLCache.ttl self) <= now - ts)%Q.
Proof.
  unfold TTLCache.expired. destruct (Qlt_le_dec _ _) as [Hlt|Hle].
  - split; [done|]. intros Hle. exfalso. by eapply Qlt_not_le.
  - done.
Qed.

(** What a [set] that returns leaves behind: the entry, stamped with the
    last clock reading of the call. *)
Lemma set_done self key value w c' w' :
  TTLCache.set self key value w = (TTLCache.Done, c', w') ->
  exists d,
    c' = TTLCache.with_entries self
           (dict_setitem key (value, clock w (Nat.pred (clock_reads w'))) d)
    /\ clock w' = clock w
    /\ (clock_reads w < clock_reads w')%nat.
Proof.
  unfold TTLCache.set.
  destruct (TTLCache.at_capacity self (TTLCache._cache self)).
  - destruct (TTLCache.at_capacity self (TTLCache.drop_expired self _)).
    + destruct (TTLCache.drop_expired self _) as [|e rest]; [done|].
      intros [= <- <-]. eexists. split; [reflexivity|]. simpl. split; [done|lia].
    + intros [= <- <-]. eexists. split; [reflexivity|]. simpl. split; [done|lia].
  - intros [= <- <-]. eexists. split; [reflexivity|]. simpl. split; [done|lia].
Qed.

(** X20: a value stored by [set] is what [get] returns for its key as long as
    the clock read by [get] is less than [ttl] after the stamp of the entry
    (the last clock reading of [set]); from then on [get] returns
    nothing. *)
Theorem ttlcache_set_then_get self key value w c' w' :
  TTLCache.set self key value w = (TTLCache.Done, c', w') ->
  let stamp := clock w (Nat.pred (clock_reads w')) in
  let now := clock w' (clock_reads w') in
  dict_get key (TTLCache._cache c') = Some (value, stamp)
  /\ ((now - stamp < inject_Z (TTLCache.ttl self))%Q ->
      TTLCache.get c' key w' = (Some value, c', tick w'))
  /\ ((inject_Z (TTLCache.ttl self) <= now - stamp)%Q ->
      (TTLCache.get c' key w').1.1 = None).
Proof.
  intros (d & -> & Hclock & Hreads)%set_done. cbv zeta.
  assert (Hget : dict_get key
            (TTLCache._cache
               (TTLCache.with_entries self
                  (dict_setitem key
                     (value, clock w (Nat.pred (clock_reads w'))) d)))
          = Some (value, clock w (Nat.pred (clock_reads w')))).
  { simpl. apply dict_get_setitem. }
  split; [exact Hget|]. unfold TTLCache.get. rewrite Hget. split.
  - intros Hfresh. by rewrite (proj2 (expired_false _ _ _)).
  - intros Hold. by rewrite (proj2 (expired_true _ _ _)).
Qed.

(** X21: [get] never hands out an expired value, and what it does not hand
    out is gone afterwards: when it returns a value the cache is unchanged
    and the entry is younger than [ttl]; when it returns nothing the key is
    absent from the cache it leaves and every other key is as before. *)
Theorem ttlcache_get_sound self key w :
  NoDup (dict_keys (TTLCache._cache self)) ->
  let '(r, c', w') := TTLCache.get self key w in
  match r with
  | Some v =>
      c' = self
      /\ exists ts, dict_get key (TTLCache._cache self) = Some (v, ts)
                    /\ (clock w (clock_reads w) - ts
                        < inject_Z (TTLCache.ttl self))%Q
  | None =>
      dict_get key (TTLCache._cache c') = None
      /\ forall k', k' <> key ->
           dict_get k' (TTLCache._cache c') = dict_get k' (TTLCache._cache self)
  end.
Proof.
  intros Hnd. unfold TTLCache.get.
  destruct (dict_get key (TTLCache._cache self)) as [[v ts]|] eqn:Eg.
  - destruct (TTLCache.expired self _ ts) eqn:Ee.
    + simpl. split; [by apply dict_get_del|].
      intros k' Hne. apply dict_get_del_ne. congruence.
    + split; [done|]. exists ts. split; [done|]. by apply expired_false.
  - done.
Qed.

(** X22: with room for at least one entry, [set] never raises and keeps the
    cache within its capacity: from a cache with distinct keys and at most
    [max_size] entries it returns such a cache. *)
Theorem ttlcache_set_keeps_capacity self key value w :
  1 <= TTLCache.max_size self ->
  NoDup (dict_keys (TTLCache._cache self)) ->
  Z.of_nat (TTLCache.size self) <= TTLCache.max_size self ->
  exists c' w',
    TTLCache.set self key value w = (TTLCache.Done, c', w')
    /\ NoDup (dict_keys (TTLCache._cache c'))
    /\ Z.of_nat (TTLCache.size c') <= TTLCache.max_size self
    /\ TTLCache.ttl c' = TTLCache.ttl self
    /\ TTLCache.max_size c' = TTLCache.max_size self.
Proof.
  intros Hmax Hnd Hsize. unfold TTLCache.set, TTLCache.size in *.
  destruct (TTLCache.at_capacity self (TTLCache._cache self)) eqn:Ecap.
  - set (kept := TTLCache.drop_expired self (clock w (clock_reads w))).
    assert (Hkept_nd : NoDup (dict_keys kept)) by by apply filter_keys_NoDup.
    assert (Hkept_len : (length kept <= length (TTLCache._cache self))%nat)
      by apply filter_length_le.
    destruct (TTLCache.at_capacity self kept) eqn:Ecap2.
    + unfold TTLCache.at_capacity in Ecap2. apply Z.leb_le in Ecap2.
      destruct kept as [|e rest] eqn:Ek; [simpl in Ecap2; lia|].
      eexists _, _. split; [reflexivity|].
      cbn [TTLCache._cache TTLCache.with_entries TTLCache.ttl TTLCache.max_size].
      destruct (oldest_from_spec rest e) as (old & Hin & Hold & _).
      assert (Hkey : oldest_from e rest ∈ dict_keys (e :: rest)).
      { rewrite Hold. apply list_elem_of_fmap. by exists old. }
      pose proof (dict_del_length _ _ Hkey) as Hlen.
      match goal with |- context [dict_setitem ?k ?v ?d] =>
        pose proof (dict_setitem_length k v d) as Hset end.
      split; [by apply dict_setitem_NoDup, dict_del_NoDup|].
      split; [|done]. cbn [length] in *. lia.
    + unfold TTLCache.at_capacity in Ecap2. apply Z.leb_gt in Ecap2.
      eexists _, _. split; [reflexivity|].
      cbn [TTLCache._cache TTLCache.with_entries TTLCache.ttl TTLCache.max_size].
      match goal with |- context [dict_setitem ?k ?v ?d] =>
        pose proof (dict_setitem_length k v d) as Hset end.
      split; [by apply dict_setitem_NoDup|]. split; [lia|done].
  - unfold TTLCache.at_capacity in Ecap. apply Z.leb_gt in Ecap.
    eexists _, _. split; [reflexivity|].
      cbn [TTLCache._cache TTLCache.with_entries TTLCache.ttl TTLCache.max_size].
    match goal with |- context [dict_setitem ?k ?v ?d] =>
      pose proof (dict_setitem_length k v d) as Hset end.
    split; [by apply dict_setitem_NoDup|]. split; [lia|done].
Qed.

(** X24: a cache built with a [max_size] of zero or less cannot store
    anything: on the empty cache every [set] raises [ValueError] (the [min]
    of no keys) and leaves the cache empty. *)
Theorem ttlcache_set_without_room self key value w :
  TTLCache.max_size self <= 0 -> TTLCache._cache self = [] ->
  TTLCache.set self key value w = (TTLCache.ValueError, self, tick w).
Proof.
  intros Hmax Hempty. unfold TTLCache.set, TTLCache.drop_expired,
    TTLCache.at_capacity.
  rewrite Hempty. simpl. rewrite (proj2 (Z.leb_le _ _)) by done.
  destruct self as [? ? d]. simpl in *. by subst.
Qed.

(** X23: when the cache is full and nothing in it has expired, [set] of a new
    key evicts one entry, the first one in insertion order among those with
    the earliest stamp: every entry before it has a later stamp, no entry
    after it has an earlier one. [set] keeps all the others in their order
    and appends the new entry. *)
Theorem ttlcache_set_evicts_oldest self key value w :
  TTLCache._cache self <> [] ->
  TTLCache.at_capacity self (TTLCache._cache self) = true ->
  Forall (fun e => TTLCache.expired self (clock w (clock_reads w)) e.2.2 = false)
         (TTLCache._cache self) ->
  key ∉ dict_keys (TTLCache._cache self) ->
  exists before old after,
    TTLCache._cache self = before ++ old :: after
    /\ Forall (fun e => (old.2.2 < e.2.2)%Q) before
    /\ Forall (fun e => (old.2.2 <= e.2.2)%Q) after
    /\ TTLCache.set self key value w
       = (TTLCache.Done,
          TTLCache.with_entries self
            (dict_del old.1 (TTLCache._cache self)
             ++ [(key, (value, clock w (S (clock_reads w))))]),
          tick (tick w))
    /\ (NoDup (dict_keys (TTLCache._cache self)) ->
        dict_del old.1 (TTLCache._cache self) = before ++ after).
Proof.
  intros Hne Hcap Hfresh Hkey. unfold TTLCache.set. rewrite Hcap.
  assert (Hkept : TTLCache.drop_expired self (clock w (clock_reads w))
                  = TTLCache._cache self).
  { unfold TTLCache.drop_expired. apply filter_all.
    eapply Forall_impl; [exact Hfresh|]. by intros e ->. }
  rewrite Hkept, Hcap.
  destruct (TTLCache._cache self) as [|e rest] eqn:Ec; [done|].
  destruct (oldest_from_first rest [] e [])
    as (before & old & after & Hsplit & Hold & Hbefore & Hafter);
    [constructor | constructor |].
  cbn [app] in Hsplit.
  exists before, old, after. split; [done|]. split; [done|].
  split; [done|]. rewrite <- Hold. split.
  - rewrite dict_setitem_new; [done|].
    intros Hk. apply Hkey. by eapply dict_del_subseteq.
  - rewrite Hold, Hsplit. intros Hnd. apply dict_del_middle.
    unfold dict_keys in Hnd. rewrite fmap_app, fmap_cons in Hnd.
    apply NoDup_app in Hnd as (_ & Hdisj & _).
    intros Hin. apply (Hdisj _ Hin). left.
Qed.

End TTLCacheFacts.

(** ** More on the retry decorator and [fetch_raw] *)

(** X9: a wrapper built with [max_attempts] of zero or less never calls the
    function: it returns [None] and changes nothing. *)
Theorem retry_on_failure_no_attempts {A} max_attempts delay backoff_factor
    exceptions (func : M A) w :
  max_attempts <= 0 ->
  retry_on_failure max_attempts delay backoff_factor exceptions func w
  = (Ok None, w).
Proof.
  intros Hn. unfold retry_on_failure, range.
  replace (Z.to_nat max_attempts) with 0%nat by lia. reflexivity.
Qed.

Lemma retry_loop_recovers delay backoff_factor (errs : nat -> exn) data n k :
  forall i last w,
    (Z.of_nat (i + k) < n) ->
    (forall j, (j < k)%nat ->
       http w (requests w + j) = Raise (errs (i + j)%nat)
       /\ transport_errors (errs (i + j)%nat) = true) ->
    http w (requests w + k) = Ok data ->
    forall rest,
    retry_loop n delay backoff_factor transport_errors http_get
               ((Z.of_nat <$> seq i (S k)) ++ rest) last w
    = (Ok (Some data),
       after_requests (S k)
         ((fun a => (delay * backoff_factor ^ Z.of_nat a)%Q) <$> seq i k) w).
Proof.
  induction k as [|k IH]; intros i last w Hn Hall Hok rest;
    change (seq i (S ?m)) with (i :: seq (S i) m);
    rewrite fmap_cons; cbn [app]; rewrite retry_loop_cons;
    unfold http_get at 1.
  - rewrite Nat.add_0_r in Hok. rewrite Hok. unfold after_requests.
    cbn [fmap list_fmap seq]. by rewrite app_nil_r, Nat.add_1_r.
  - destruct (Hall 0%nat ltac:(lia)) as [Hget Hexc].
    rewrite !Nat.add_0_r in Hget. rewrite Nat.add_0_r in Hexc.
    rewrite Hget, Hexc. rewrite (proj2 (Z.ltb_lt _ _)) by lia.
    rewrite IH.
    + unfold after_requests, sleep.
      cbn [http clock requests clock_reads slept stdout fst snd].
      change (seq i (S k)) with (i :: seq (S i) k). rewrite fmap_cons.
      replace (S (requests w) + S k)%nat with (requests w + S (S k))%nat by lia.
      by rewrite <- app_assoc.
    + lia.
    + intros j Hj. unfold sleep. cbn [http requests fst snd].
      replace (S (requests w) + j)%nat with (requests w + S j)%nat by lia.
      replace (S i + j)%nat with (i + S j)%nat by lia.
      apply Hall. lia.
    + unfold sleep. cbn [http requests fst snd].
      replace (S (requests w) + k)%nat with (requests w + S k)%nat by lia.
      done.
Qed.

(** X8: a wrapper around the GET with [max_attempts] attempts recovers from
    transport errors: when the first [k] GETs raise listed exceptions and
    the next one answers, with [k < max_attempts], it returns the answer
    after [k + 1] GETs, having slept [delay * backoff_factor ^ j] after the
    [j]-th failure. This is stated for the floats [delay] and
    [backoff_factor] whose [k] waits are computed without rounding: every
    power and every product is a binary64 number ([exact_waits]); for other
    floats the code sleeps a rounded product, or raises [OverflowError]. *)
Theorem retry_on_failure_recovers max_attempts delay backoff_factor
    (errs : nat -> exn) data k w :
  Z.of_nat k < max_attempts ->
  exact_waits delay backoff_factor k = true ->
  (forall j, (j < k)%nat ->
     http w (requests w + j) = Raise (errs j)
     /\ transport_errors (errs j) = true) ->
  http w (requests w + k) = Ok data ->
  retry_on_failure max_attempts delay backoff_factor transport_errors
                   http_get w
  = (Ok (Some data),
     after_requests (S k)
       ((fun j => (delay * backoff_factor ^ Z.of_nat j)%Q) <$> seq 0 k) w).
Proof.
  intros Hk _ Hall Hok. unfold retry_on_failure, range.
  replace (Z.to_nat max_attempts)
    with (S k + (Z.to_nat max_attempts - S k))%nat by lia.
  rewrite seq_app, fmap_app.
  apply (retry_loop_recovers delay backoff_factor errs data max_attempts k 0);
    [lia | exact Hall | exact Hok].
Qed.

(** X7: whatever the network does, one call of [fetch_raw] makes at most
    three GETs, sleeps only between them (1 second after the first failure,
    2 after the second), and either returns bytes or raises: it never
    returns [None]. *)
Theorem fetch_raw_bounded self w :
  exists k,
    (k < 3)%nat
    /\ (fetch_raw self w).2 = after_requests (S k) (take k [1; 2]%Q) w
    /\ (fetch_raw self w).1 <> Ok None.
Proof.
  enough (Hrun : exists k r,
            (k < 3)%nat
            /\ fetch_raw self w
               = (r, after_requests (S k) (take k [1; 2]%Q) w)
            /\ r <> Ok None).
  { destruct Hrun as (k & r & Hk & -> & Hr). by exists k. }
  unfold fetch_raw, retry_on_failure, fetch_raw_body.
  change (range 3) with [0; 1; 2].
  rewrite retry_loop_cons. unfold http_get at 1.
  destruct (http w (requests w)) as [b0|e0].
  { exists 0%nat, (Ok (Some b0)). split; [lia|]. split; [|discriminate].
    unfold after_requests. simpl. by rewrite app_nil_r, Nat.add_1_r. }
  destruct (transport_errors e0).
  2: { exists 0%nat, (Raise e0). split; [lia|]. split; [|discriminate].
       unfold after_requests. simpl. by rewrite app_nil_r, Nat.add_1_r. }
  change (0 <? 3 - 1) with true. cbv iota.
  rewrite retry_loop_cons. unfold http_get at 1, sleep.
  cbn [fst snd http requests].
  destruct (http w (S (requests w))) as [b1|e1].
  { exists 1%nat, (Ok (Some b1)). split; [lia|]. split; [|discriminate].
    unfold after_requests. simpl. do 2 f_equal. lia. }
  destruct (transport_errors e1).
  2: { exists 1%nat, (Raise e1). split; [lia|]. split; [|discriminate].
       unfold after_requests. simpl. do 2 f_equal. lia. }
  change (1 <? 3 - 1) with true. cbv iota.
  rewrite retry_loop_cons. unfold http_get at 1, sleep.
  cbn [fst snd http requests].
  exists 2%nat.
  assert (Hend : after_requests 3 (take 2 [1; 2]%Q) w
    = {| http := http w; clock := clock w; requests := S (S (S (requests w)));
         clock_reads := clock_reads w;
         slept := (slept w ++ [(1 * 2 ^ 0)%Q]) ++ [(1 * 2 ^ 1)%Q];
         stdout := stdout w |}).
  { unfold after_requests. simpl. rewrite <- app_assoc. f_equal. lia. }
  rewrite Hend.
  destruct (http w (S (S (requests w)))) as [b2|e2].
  { exists (Ok (Some b2)). split; [lia|]. split; [reflexivity | discriminate]. }
  change (2 <? 3 - 1) with false.
  destruct (transport_errors e2); cbv iota;
    (exists (Raise e2); split; [lia|]; split; [reflexivity | discriminate]).
Qed.

(** ** More on strings and digests *)

Lemma drop_while_nil {A} (p : A -> bool) (l : list A) :
  drop_while p l = [] <-> Forall (fun x => p x = true) l.
Proof.
  induction l as [|x l IH]; simpl; [by split; [constructor|]|].
  destruct (p x) eqn:E.
  - rewrite IH. split; [by constructor | by intros [_ ?]%Forall_cons].
  - split; [done|]. intros [? _]%Forall_cons. congruence.
Qed.

Lemma strip_nil s : strip s = [] <-> Forall (fun c => is_space c = true) s.
Proof.
  unfold strip, rstrip, lstrip. split.
  - intros Hs. apply (f_equal reverse) in Hs.
    rewrite reverse_involutive, reverse_nil in Hs.
    apply drop_while_nil in Hs. apply drop_while_nil.
    destruct (drop_while is_space s) as [|c r] eqn:E; [done|].
    pose proof (drop_while_head _ _ _ _ E) as Hc.
    rewrite Forall_forall in Hs.
    rewrite (Hs c) in Hc; [done|]. apply elem_of_reverse. left.
  - intros Hs. by rewrite (proj2 (drop_while_nil _ _) Hs).
Qed.

Lemma startswith_http_not_slash s :
  startswith s (lit "http") = true -> startswith s (lit "/") = false.
Proof. intros [r ->]%startswith_spec. reflexivity. Qed.

(** X14: the link [from_rss_item] resolves is always absolute: it starts with
    "http"; a text starting with a slash is put behind the base URL, a text
    starting with "http" is kept as it is, any other text is put behind the
    base URL and a slash; resolving a resolved link changes nothing. *)
Theorem resolve_link_absolute link_text :
  let r := resolve_link BASE_URL link_text in
  startswith r (lit "http") = true
  /\ resolve_link BASE_URL r = r
  /\ (startswith link_text (lit "/") = true -> r = BASE_URL ++ link_text)
  /\ (startswith link_text (lit "http") = true -> r = link_text)
  /\ (startswith link_text (lit "/") = false ->
      startswith link_text (lit "http") = false ->
      r = BASE_URL ++ lit "/" ++ link_text).
Proof.
  cbv zeta.
  assert (Habs : startswith (resolve_link BASE_URL link_text) (lit "http")
                 = true).
  { unfold resolve_link. destruct (startswith link_text (lit "/")); [done|].
    destruct (startswith link_text (lit "http")) eqn:E; done. }
  split; [done|]. split; [|split; [|split]].
  - unfold resolve_link at 1.
    by rewrite (startswith_http_not_slash _ Habs), Habs.
  - unfold resolve_link. by intros ->.
  - intros Hh. unfold resolve_link.
    by rewrite (startswith_http_not_slash _ Hh), Hh.
  - intros Hs Hh. unfold resolve_link. rewrite Hs, Hh. cbn [negb].
    assert (Hl : lstrip_slash link_text = link_text); [|by rewrite Hl].
    unfold lstrip_slash. apply drop_while_fixed.
    destruct link_text as [|c l]; [done|].
    change (startswith (c :: l) (lit "/"))
      with ((47 =? c)%N && startswith l []) in Hs.
    destruct l; simpl in Hs; by rewrite andb_true_r in Hs.
Qed.

Lemma be_bytes_length n x : length (SHA1.be_bytes n x) = n.
Proof. unfold SHA1.be_bytes. by rewrite length_fmap, length_seq. Qed.

Lemma be_bytes_range n x :
  Forall (fun b => 0 <= b < 256) (SHA1.be_bytes n x).
Proof.
  unfold SHA1.be_bytes. apply Forall_fmap, Forall_forall. intros i _. simpl.
  apply Z.mod_pos_bound. lia.
Qed.

Lemma hex_digit_is_hex d :
  0 <= d < 16 -> is_hex_digit (SHA1.hex_digit d) = true.
Proof.
  intros Hd. unfold is_hex_digit, SHA1.hex_digit. apply orb_true_iff.
  destruct (Z.ltb_spec d 10); [left | right];
    apply andb_true_iff; split; apply N.leb_le; lia.
Qed.

Lemma hex_shape bs :
  Forall (fun b => 0 <= b < 256) bs ->
  length (SHA1.hex bs) = (2 * length bs)%nat
  /\ Forall (fun c => is_hex_digit c = true) (SHA1.hex bs).
Proof.
  unfold SHA1.hex. induction 1 as [|b bs Hb _ [IHl IHd]]; [by split|].
  csimpl. split; [lia|].
  constructor; [|constructor; [|done]]; apply hex_digit_is_hex.
  - split; [apply Z.div_pos; lia | apply Z.div_lt_upper_bound; lia].
  - apply Z.mod_pos_bound. lia.
Qed.

(** A SHA-1 hex digest is 40 characters, each a digit or a letter from a
    to f. *)
Lemma hexdigest_shape data :
  length (SHA1.hexdigest data) = 40%nat
  /\ Forall (fun c => is_hex_digit c = true) (SHA1.hexdigest data).
Proof.
  unfold SHA1.hexdigest, SHA1.digest. cbv zeta.
  match goal with |- context [SHA1.hex ?bs] =>
    destruct (hex_shape bs) as [Hl Hd] end.
  - repeat (apply Forall_app; split); apply be_bytes_range.
  - split; [|done]. rewrite Hl, !length_app, !be_bytes_length. done.
Qed.

(** ** More on parsed items and on what parsing does to the world *)

Section ItemFacts.
Context `{Platform}.

Lemma extract_categories_trimmed e :
  Forall (fun c => c <> [] /\ trimmed c) (extract_categories e).
Proof.
  unfold extract_categories.
  enough (Hgen : forall elems acc,
    Forall (fun c => c <> [] /\ trimmed c) acc ->
    Forall (fun c => c <> [] /\ trimmed c)
      (fold_left
         (fun categories cat_elem =>
            match text cat_elem with
            | Some t =>
                if truthy t && truthy (strip t) then
                  let cat_text := strip t in
                  if truthy cat_text then categories ++ [cat_text]
                  else categories
                else categories
            | None => categories
            end) elems acc)).
  { apply Hgen. constructor. }
  induction elems as [|c elems IH]; intros acc Hacc; simpl; [done|].
  apply IH. destruct (text c) as [t|]; [|done].
  destruct (truthy t && truthy (strip t)); [|done].
  destruct (strip t) as [|a r] eqn:Es; simpl; [done|].
  apply Forall_app. split; [done|]. constructor; [|constructor].
  split; [done|]. unfold trimmed. by rewrite <- Es, strip_idemp.
Qed.

Lemma entry_title_trimmed e : trimmed (entry_title e).
Proof.
  unfold entry_title, trimmed.
  destruct (text_of _); [apply strip_idemp | reflexivity].
Qed.

Lemma from_rss_item_id_rule e w x w' :
  from_rss_item e BASE_URL w = (Ok x, w') -> id_rule e x.
Proof.
  rewrite from_rss_item_run. intros [= Hx _]. revert Hx.
  unfold item_at, entry_id, id_rule, usable_guid.
  destruct (entry_guid e) as [g|]; simpl.
  - unfold generate_stable_id.
    destruct (strip g) as [|c g'] eqn:Eg; simpl.
    + unfold sha1_title_link.
      destruct (utf8_encode _) as [data|] eqn:Eu; [|done].
      destruct (any_url _); [|done]. intros [= <-]. simpl. eauto.
    + rewrite <- Eg, strip_idemp, Eg. simpl.
      destruct (any_url _); [|done]. by intros [= <-].
  - unfold sha1_title_link.
    destruct (utf8_encode _) as [data|] eqn:Eu; [|done].
    destruct (any_url _); [|done]. intros [= <-]. simpl. eauto.
Qed.

Lemma from_rss_item_fields e w x w' :
  from_rss_item e BASE_URL w = (Ok x, w') ->
  title x = entry_title e
  /\ categories x = extract_categories e
  /\ raw_guid x = strip <$> entry_guid e
  /\ source x = lit "rss:stadt-koeln"
  /\ any_url (entry_link e) = Some (link x).
Proof.
  rewrite from_rss_item_run. intros [= Hx _]. revert Hx. unfold item_at.
  destruct (entry_id e); [|done].
  destruct (any_url _) eqn:Eu; [|done]. by intros [= <-].
Qed.

(** X12: every item [from_rss_item] returns has its texts trimmed: neither
    the title, nor a category, nor the GUID starts or ends with white space,
    no category is empty, and the source is the constant tag. *)
Theorem from_rss_item_trimmed e w x w' :
  from_rss_item e BASE_URL w = (Ok x, w') ->
  trimmed (title x)
  /\ Forall (fun c => c <> [] /\ trimmed c) (categories x)
  /\ (forall g, raw_guid x = Some g -> trimmed g)
  /\ source x = lit "rss:stadt-koeln".
Proof.
  intros (Ht & Hc & Hg & Hs & _)%from_rss_item_fields.
  rewrite Ht, Hc, Hg. split; [apply entry_title_trimmed|].
  split; [apply extract_categories_trimmed|]. split; [|done].
  intros g. destruct (entry_guid e); [|done]. intros [= <-]. apply strip_idemp.
Qed.

(** X11: the id of every item [from_rss_item] returns is not empty: it is the
    usable GUID of the entry, which is then also the item's [raw_guid], or
    else 40 characters out of 0-9 and a-f. *)
Theorem from_rss_item_id_shape e w x w' :
  from_rss_item e BASE_URL w = (Ok x, w') ->
  id x <> []
  /\ match usable_guid e with
     | Some g => id x = g /\ raw_guid x = Some g
     | None =>
         length (id x) = 40%nat
         /\ Forall (fun c => is_hex_digit c = true) (id x)
     end.
Proof.
  intros Hx. pose proof (from_rss_item_id_rule _ _ _ _ Hx) as Hrule.
  apply from_rss_item_fields in Hx as (_ & _ & Hg & _).
  unfold id_rule in Hrule. unfold usable_guid in *.
  destruct (entry_guid e) as [g|]; simpl in *.
  - destruct (strip g) as [|c r] eqn:Es; simpl in *.
    + destruct Hrule as (data & _ & ->).
      destruct (hexdigest_shape data) as [Hl Hd].
      split; [|done]. intros Hnil. by rewrite Hnil in Hl.
    + rewrite Hrule. done.
  - destruct Hrule as (data & _ & ->).
    destruct (hexdigest_shape data) as [Hl Hd].
    split; [|done]. intros Hnil. by rewrite Hnil in Hl.
Qed.

(** X13: the title of a parsed item is empty exactly when the entry has a
    title element whose text is not empty and consists of white space only;
    an entry without title element, or with one without text, gets the
    placeholder. *)
Theorem from_rss_item_title e w x w' :
  from_rss_item e BASE_URL w = (Ok x, w') ->
  (title x = [] <->
   exists t, text_of (find e (lit "title")) = Some t
             /\ Forall (fun c => is_space c = true) t)
  /\ (text_of (find e (lit "title")) = None ->
      title x = lit "Unbekannter Titel").
Proof.
  intros (-> & _)%from_rss_item_fields. unfold entry_title.
  destruct (text_of (find e (lit "title"))) as [t|].
  - split; [|done]. rewrite strip_nil. split.
    + intros Hs. by exists t.
    + by intros (t' & [= <-] & Hs).
  - split; [|done]. split; [done | by intros (t & ? & _)].
Qed.

Lemma entry_reads_total elems :
  sum_list (entry_reads <$> elems)
  = (length elems + length (List.filter has_pubdate elems))%nat.
Proof.
  induction elems as [|e elems IH]; [done|]. cbn [fmap list_fmap sum_list].
  fold (fmap (M:=list) entry_reads elems).
  rewrite IH. unfold entry_reads. simpl. destruct (has_pubdate e); simpl; lia.
Qed.

Lemma parse_loop_world elems : forall items w,
  (parse_loop elems items w).2
  = World (http w) (clock w) (requests w)
          (clock_reads w + sum_list (entry_reads <$> elems))
          (slept w) (stdout w ++ omap raised (individually w elems)).
Proof.
  induction elems as [|e elems IH]; intros items w.
  - simpl. rewrite Nat.add_0_r, app_nil_r. by destruct w.
  - rewrite individually_cons. cbn [parse_loop].
    rewrite from_rss_item_run. cbn [fmap list_fmap sum_list].
    fold (fmap (M:=list) entry_reads elems).
    destruct (item_at _ _ e) as [x|ex]; cbn [omap list_omap raised].
    + rewrite IH. simpl. f_equal. lia.
    + unfold mbind, M_bind, print_error. cbn [fst snd].
      rewrite IH. simpl. f_equal; [lia|]. rewrite <- app_assoc. simpl.
      do 2 f_equal. f_equal. by apply individually_ext.
Qed.

(** X10: parsing never touches the network and never sleeps: [parse_items]
    leaves the GET counter and the sleep log as they were. It reads the clock
    once for every item entry of the feed and, through [dateutil], once more
    for every entry that has a pubDate text, whether or not the entry parses;
    and it prints one error for every entry on which [from_rss_item] raises,
    in feed order. *)
Theorem parse_items_effects xml_data w :
  let w' := (parse_items xml_data w).2 in
  let entries := feed_entries xml_data in
  http w' = http w /\ clock w' = clock w
  /\ requests w' = requests w /\ slept w' = slept w
  /\ clock_reads w'
     = (clock_reads w + length entries
        + length (List.filter has_pubdate entries))%nat
  /\ stdout w' = stdout w ++ omap raised (individually w entries).
Proof.
  cbv zeta. rewrite <- Nat.add_assoc, <- entry_reads_total.
  unfold parse_items, feed_entries, feed_channel.
  destruct (etree_fromstring xml_data) as [root|]; simpl.
  2: { by rewrite Nat.add_0_r, app_nil_r. }
  destruct (find root (lit "channel")) as [channel|]; simpl.
  2: { by rewrite Nat.add_0_r, app_nil_r. }
  unfold mbind, M_bind.
  pose proof (parse_loop_world (findall channel (lit "item")) [] w) as Hw.
  destruct (parse_loop _ [] w) as [[items|ex] w']; simpl in Hw; subst w'.
  - by destruct items.
  - done.
Qed.

End ItemFacts.

(** ** More on the client *)

Lemma head_filter_Some {A} (P : A -> Prop) `{forall x, Decision (P x)}
    (l : list A) x :
  head (filter P l) = Some x ->
  P x /\ exists pre post, l = pre ++ x :: post /\ Forall (fun y => ~ P y) pre.
Proof.
  induction l as [|y l IH]; [done|]. rewrite filter_cons.
  destruct (decide (P y)) as [Hy|Hy]; simpl.
  - intros [= ->]. split; [done|]. exists [], l. by split; [|constructor].
  - intros (Hx & pre & post & -> & Hpre)%IH. split; [done|].
    exists (y :: pre), post. split; [done | by constructor].
Qed.

Lemma head_filter_None {A} (P : A -> Prop) `{forall x, Decision (P x)}
    (l : list A) :
  head (filter P l) = None -> Forall (fun y => ~ P y) l.
Proof.
  induction l as [|y l IH]; [constructor|]. rewrite filter_cons.
  destruct (decide (P y)) as [Hy|Hy]; simpl; [done|].
  intros Hl. constructor; [done | by apply IH].
Qed.

Lemma elem_of_take_in {A} (x : A) n l : x ∈ take n l -> x ∈ l.
Proof.
  intros Hx. rewrite <- (take_drop n l). apply elem_of_app. by left.
Qed.

Section ClientFacts.
Context `{Platform}.

(** X1: [get_item_by_id] returns the first item of the loaded snapshot that
    has the id, in snapshot order, and [None] when no item has it, which is
    no error; it raises only what [load_items_cached] raises, and leaves the
    client and the world as [load_items_cached] leaves them. *)
Theorem get_item_by_id_first self item_id w :
  match load_items_cached self w with
  | (Ok items, self', w') =>
      exists r,
        get_item_by_id self item_id w = (Ok r, self', w')
        /\ match r with
           | Some x =>
               id x = item_id
               /\ exists pre post,
                    items = pre ++ x :: post
                    /\ Forall (fun y => id y <> item_id) pre
           | None => Forall (fun y => id y <> item_id) items
           end
  | (Raise e, self', w') =>
      get_item_by_id self item_id w = (Raise e, self', w')
  end.
Proof.
  unfold get_item_by_id.
  destruct (load_items_cached self w) as [[[items|e] self'] w']; [|done].
  eexists. split; [reflexivity|].
  destruct (head (filter _ items)) as [x|] eqn:Eh.
  - by apply head_filter_Some in Eh.
  - by apply head_filter_None in Eh.
Qed.

Lemma cache_valid_Some self now items :
  cache_valid self now = Some items -> _cached_items self = Some items.
Proof.
  unfold cache_valid. destruct (_cached_items self); [|done].
  destruct (_last_fetch self); [|done].
  destruct (Qlt_le_dec _ _); [|done]. by intros [= ->].
Qed.

(** X2: whatever [load_items_cached] returns is the snapshot the client
    holds afterwards, with the settings of the client unchanged; and it
    raises only when the client has no snapshot, leaving the client as it
    was. *)
Theorem load_items_cached_holds_result self w :
  match load_items_cached self w with
  | (Ok items, self', _) =>
      _cached_items self' = Some items
      /\ cache_ttl self' = cache_ttl self
      /\ max_retries self' = max_retries self
      /\ http_timeout self' = http_timeout self
      /\ rss_url self' = rss_url self
  | (Raise _, self', _) => self' = self /\ _cached_items self = None
  end.
Proof.
  unfold load_items_cached, read_clock.
  destruct (cache_valid self _) as [items|] eqn:Ev.
  - apply cache_valid_Some in Ev. done.
  - destruct (fetch_and_parse self _) as [[items|e] w2]; [by simpl|].
    by destruct (_cached_items self) eqn:Ec.
Qed.

Lemma fetch_and_parse_nonempty self w items w' :
  fetch_and_parse self w = (Ok items, w') -> items <> [].
Proof.
  unfold fetch_and_parse, mbind, M_bind.
  destruct (fetch_raw self w) as [[[data|]|e] w1]; [|done..].
  by intros [_ ?]%parse_items_ok.
Qed.

(** X3: when the cache does not answer and fetch and parse succeed, the call
    returns the new items, which are not empty, and installs them stamped
    with the clock reading made at the start of the call; every later call
    whose clock reading is less than the TTL after that stamp returns the
    same items without a GET. *)
Theorem load_items_cached_refreshes self w items w2 :
  cache_valid self (clock w (clock_reads w)) = None ->
  fetch_and_parse self (tick w) = (Ok items, w2) ->
  let stamp := clock w (clock_reads w) in
  let self' := set_cache self (Some items) (Some stamp) in
  load_items_cached self w = (Ok items, self', w2)
  /\ items <> []
  /\ forall w3,
       (clock w3 (clock_reads w3) - stamp < inject_Z (cache_ttl self))%Q ->
       load_items_cached self' w3 = (Ok items, self', tick w3).
Proof.
  intros Hstale Hok. cbv zeta. split; [|split].
  - unfold load_items_cached, read_clock. fold (tick w).
    by rewrite Hstale, Hok.
  - by eapply fetch_and_parse_nonempty.
  - intros w3 Hage. unfold load_items_cached, read_clock.
    by rewrite (cache_valid_fresh _ _ items (clock w (clock_reads w))).
Qed.

(** X4: while the network is down, serving a stale snapshot costs a whole
    retry cycle on every call: with a snapshot that the cache test rejects
    and three GETs in a row raising transport errors, the call makes these
    three GETs, sleeps 1 and 2 seconds, returns the stale snapshot and
    leaves the client, its time stamp included, as it was. *)
Theorem load_items_cached_stale_cost self w stale (errs : nat -> exn) :
  _cached_items self = Some stale ->
  cache_valid self (clock w (clock_reads w)) = None ->
  (forall j, (j < 3)%nat ->
     http w (requests w + j) = Raise (errs j)
     /\ transport_errors (errs j) = true) ->
  load_items_cached self w
  = (Ok stale, self, after_requests 3 [1; 2]%Q (tick w)).
Proof.
  intros Hc Hstale Hall. unfold load_items_cached, read_clock. fold (tick w).
  rewrite Hstale.
  rewrite (fetch_and_parse_fetch_fails self (tick w) (errs 2%nat)
             (after_requests 3 [1; 2]%Q (tick w))).
  - by rewrite Hc.
  - by apply fetch_raw_exhausts.
Qed.

(** X5: a forced refresh has no stale fallback: when fetch or parse raises,
    [refresh_cache] raises the wrapped error and leaves the client as it
    was, snapshot included; when they succeed it installs the items stamped
    with a clock reading made after them, and every later
    [load_items_cached] whose clock reading is less than the TTL after that
    stamp returns these items without a GET. *)
Theorem refresh_cache_outcome self w :
  match fetch_and_parse self w with
  | (Ok items, w1) =>
      let stamp := clock w1 (clock_reads w1) in
      let self' := set_cache self (Some items) (Some stamp) in
      refresh_cache self w = (Ok tt, self', tick w1)
      /\ forall w3,
           (clock w3 (clock_reads w3) - stamp < inject_Z (cache_ttl self))%Q ->
           load_items_cached self' w3 = (Ok items, self', tick w3)
  | (Raise e, w1) => refresh_cache self w = (Raise (RefreshFailed e), self, w1)
  end.
Proof.
  unfold refresh_cache.
  destruct (fetch_and_parse self w) as [[items|e] w1]; [|done].
  cbv zeta. split; [done|]. intros w3 Hage.
  unfold load_items_cached, read_clock.
  by rewrite (cache_valid_fresh _ _ items (clock w1 (clock_reads w1))).
Qed.

(** X6: after [clear_cache] the next [load_items_cached] goes to the network
    whatever the clock reads: it returns and installs what fetch and parse
    give, and raises their error when they fail, there being no snapshot
    left to fall back on; and [get_categories] is empty until then. *)
Theorem clear_cache_then_load self w :
  get_categories (clear_cache self) = []
  /\ load_items_cached (clear_cache self) w
     = match fetch_and_parse self (tick w) with
       | (Ok items, w2) =>
           (Ok items,
            set_cache self (Some items) (Some (clock w (clock_reads w))), w2)
       | (Raise e, w2) => (Raise e, clear_cache self, w2)
       end.
Proof.
  split; [done|]. unfold load_items_cached, read_clock. fold (tick w).
  change (cache_valid (clear_cache self) _) with (@None (list PressItem)).
  change (fetch_and_parse (clear_cache self)) with (fetch_and_parse self).
  by destruct (fetch_and_parse self (tick w)) as [[items|e] w2].
Qed.

(** X15: a search never returns more than [limit] items when [limit] is not
    negative, never more than the snapshot holds, and only items of the
    snapshot; for a query that is not empty after lower-casing and trimming,
    every returned item has a positive score. *)
Theorem search_in_bounds items query limit :
  0 <= limit ->
  let q := strip (str_lower query) in
  let r := search_in items query limit in
  (length r <= Z.to_nat limit)%nat
  /\ (length r <= length items)%nat
  /\ forall x, x ∈ r -> x ∈ items /\ (q <> [] -> 0 < _score_item x q).
Proof.
  intros Hlimit q r. subst r.
  destruct (decide (q = [])) as [Hq|Hq].
  - rewrite search_in_empty, slice_to_nonneg by done.
    split; [rewrite length_take; lia|]. split; [rewrite length_take; lia|].
    intros x Hx. split; [|done]. by eapply elem_of_take_in.
  - rewrite search_in_ranked, slice_to_nonneg by done. fold q.
    pose proof (ranked_perm items q) as Hp.
    assert (Hlen : (length (ranked items q) <= length items)%nat).
    { rewrite Hp. apply length_filter. }
    split; [rewrite length_take; lia|]. split; [rewrite length_take; lia|].
    intros x Hx. apply elem_of_take_in in Hx.
    rewrite Hp in Hx. apply list_elem_of_filter in Hx as [Hpos Hin].
    split; [done|]. intros _. by rewrite _score_item_relevance.
Qed.

(** X16: the score of an item is positive exactly when the query occurs in
    its lower-cased title, in one of its lower-cased categories or in its
    lower-cased description; it lies between 0 and 4 plus twice the number
    of categories. *)
Theorem score_item_positive item q :
  (0 < _score_item item q <->
   substring q (str_lower (title item))
   \/ (exists c, c ∈ categories item /\ substring q (str_lower c))
   \/ substring q (str_lower (default [] (description item))))
  /\ 0 <= _score_item item q
     <= 4 + 2 * Z.of_nat (length (categories item)).
Proof.
  rewrite _score_item_relevance. unfold relevance.
  set (hits := filter (fun c => contains (str_lower c) q = true)
                      (categories item)).
  assert (Hlen : (length hits <= length (categories item))%nat)
    by apply length_filter.
  assert (Hhits : (0 < length hits)%nat <->
                  exists c, c ∈ categories item /\ substring q (str_lower c)).
  { split.
    - destruct hits as [|c hs] eqn:Eh; [simpl; lia|]. intros _.
      assert (Hc : c ∈ hits) by (rewrite Eh; left).
      apply list_elem_of_filter in Hc as [Hc Hin].
      exists c. split; [done|]. by apply contains_spec.
    - intros (c & Hin & Hsub). apply contains_spec in Hsub.
      assert (Hc : c ∈ hits) by by apply list_elem_of_filter.
      destruct hits; [by apply elem_of_nil in Hc | simpl; lia]. }
  rewrite <- !contains_spec, <- Hhits.
  destruct (contains (str_lower (title item)) q);
    destruct (contains (str_lower (default [] (description item))) q);
    split; try lia; split; intros; try lia; auto;
    try (destruct (length hits); [|lia]; intuition (try discriminate; lia)).
Qed.

End ClientFacts.

(** ** The handlers of the server *)

Lemma get_categories_members self items :
  _cached_items self = Some items ->
  NoDup (get_categories self)
  /\ StronglySorted str_le (get_categories self)
  /\ forall c, c ∈ get_categories self
               <-> exists it, it ∈ items /\ c ∈ categories it.
Proof.
  intros Hc. unfold get_categories. rewrite Hc. cbv zeta.
  set (cats := fold_left _ items ∅).
  split; [|split].
  - rewrite merge_sort_Permutation. apply NoDup_elements.
  - apply StronglySorted_merge_sort; apply _.
  - intros c. rewrite merge_sort_Permutation, elem_of_elements.
    unfold cats. rewrite categories_union_elem. split; [|by right].
    intros [Hin|?]; [|done]. by apply not_elem_of_empty in Hin.
Qed.

Section ServerFacts.
Context `{Platform}.
Variable isoformat : datetime -> str.



(** X18: the categories tool lists the categories of the very items the load
    it triggers returns, be they fresh, just fetched or stale: a list
    without repetition, ascending, whose members are exactly the categories
    of these items; it answers 500 when the load raises. *)
Theorem server_categories_of_loaded client w :
  match load_items_cached client w with
  | (Ok items, c2, w2) =>
      exists cats,
        Server.categories client w
        = (Reply cats, [InfoCategories (length cats)], c2, w2)
        /\ NoDup cats /\ StronglySorted str_le cats
        /\ forall c, c ∈ cats <-> exists it, it ∈ items /\ c ∈ categories it
  | (Raise e, c2, w2) =>
      Server.categories client w
      = (HTTPException 500 (FailedToFetchCategories e), [ErrorCategories e],
         c2, w2)
  end.
Proof.
  unfold Server.categories.
  assert (Hheld : forall items c2 w2,
            load_items_cached client w = (Ok items, c2, w2) ->
            _cached_items c2 = Some items).
  { intros items c2 w2. unfold load_items_cached, read_clock.
    destruct (cache_valid client _) as [cached|] eqn:Ev.
    - intros [= <- <- _]. by apply cache_valid_Some in Ev.
    - destruct (fetch_and_parse client _) as [[fetched|e] w3].
      + by intros [= <- <- _].
      + destruct (_cached_items client) eqn:Ec; [|done].
        by intros [= <- <- _]. }
  destruct (load_items_cached client w) as [[[items|e] c2] w2]; [|done].
  exists (get_categories c2). split; [done|].
  apply get_categories_members. by eapply Hheld.
Qed.


End ServerFacts.

(** ** The properties at concrete inputs

    From here on the platform is the sample one. *)

#[local] Existing Instance Sample.platform.

(** C1 at a client whose snapshot is 1000 seconds old (TTL 300) and at a
    client without snapshot, the network being down. *)
Lemma load_items_cached_refresh_fails_witness :
  let stale := Sample.with_cache (Some Sample.snapshot) (Some 0%Q) in
  let empty := Sample.with_cache None None in
  let w := Sample.world_at 1000 Sample.down in
  let w2 := after_requests 3 [1; 2]%Q (tick w) in
  (cache_valid stale (clock w (clock_reads w)) = None
   /\ fetch_and_parse stale (tick w) = (Raise (RequestError "down"), w2)
   /\ load_items_cached stale w = (Ok Sample.snapshot, stale, w2))
  /\ (cache_valid empty (clock w (clock_reads w)) = None
      /\ fetch_and_parse empty (tick w) = (Raise (RequestError "down"), w2)
      /\ load_items_cached empty w = (Raise (RequestError "down"), empty, w2)).
Proof.
  cbv zeta. split.
  - split; [reflexivity|]. split; [reflexivity|].
    exact (load_items_cached_refresh_fails
             (Sample.with_cache (Some Sample.snapshot) (Some 0%Q))
             (Sample.world_at 1000 Sample.down) _ _ eq_refl eq_refl).
  - split; [reflexivity|]. split; [reflexivity|].
    exact (load_items_cached_refresh_fails
             (Sample.with_cache None None)
             (Sample.world_at 1000 Sample.down) _ _ eq_refl eq_refl).
Defined.

(** C8 at a client whose snapshot is 100 seconds old at the first call and
    101 seconds old at the second (TTL 300). *)
Lemma load_items_cached_fresh_twice_witness :
  let self := Sample.with_cache (Some Sample.snapshot) (Some (inject_Z 900)) in
  let w := Sample.world_at 1000 Sample.down in
  ((clock w (clock_reads w) - inject_Z 900 < inject_Z (cache_ttl self))%Q
   /\ (clock w (S (clock_reads w)) - inject_Z 900
       < inject_Z (cache_ttl self))%Q)
  /\ load_items_cached self w = (Ok Sample.snapshot, self, tick w)
  /\ load_items_cached self (tick w) = (Ok Sample.snapshot, self, tick (tick w))
  /\ requests (tick (tick w)) = requests w
  /\ slept (tick (tick w)) = slept w.
Proof.
  cbv zeta. split; [split; reflexivity|].
  apply (load_items_cached_fresh_twice
           (Sample.with_cache (Some Sample.snapshot) (Some (inject_Z 900)))
           (Sample.world_at 1000 Sample.down) Sample.snapshot (inject_Z 900));
    reflexivity.
Defined.

(** C2 at the sample snapshot, the query " BAUstellen " and the limit 2. *)
Lemma search_items_ranking_witness :
  let self := Sample.with_cache (Some Sample.snapshot) (Some (inject_Z 900)) in
  let w := Sample.world_at 1000 Sample.down in
  let query := lit " BAUstellen " in
  load_items_cached self w = (Ok Sample.snapshot, self, tick w)
  /\ 0 <= 2
  /\ let q := strip (str_lower query) in
     exists result,
       search_items self query 2 w = (Ok result, self, tick w)
       /\ (q = [] -> result = take (Z.to_nat 2) Sample.snapshot)
       /\ (q <> [] ->
           exists best_first,
             result = take (Z.to_nat 2) best_first
             /\ best_first
                ≡ₚ filter (fun it => 0 < relevance it q) Sample.snapshot
             /\ StronglySorted (fun a b => relevance b q <= relevance a q)
                               best_first)
       /\ (forall it, _score_item it q = relevance it q)
       /\ (forall s, contains s q = true <-> substring q s).
Proof.
  cbv zeta. split; [reflexivity|]. split; [lia|].
  apply (search_items_ranking
           (Sample.with_cache (Some Sample.snapshot) (Some (inject_Z 900)))
           (Sample.world_at 1000 Sample.down) Sample.snapshot _ _
           (lit " BAUstellen ") 2); [reflexivity | lia].
Defined.

(** C10 at the same input: the two title matches come in snapshot order. *)
Lemma search_items_stable_witness :
  let self := Sample.with_cache (Some Sample.snapshot) (Some (inject_Z 900)) in
  let w := Sample.world_at 1000 Sample.down in
  let query := lit " BAUstellen " in
  load_items_cached self w = (Ok Sample.snapshot, self, tick w)
  /\ strip (str_lower query) <> []
  /\ let q := strip (str_lower query) in
     exists result,
       search_items self query 2 w = (Ok result, self, tick w)
       /\ (forall s,
             filter (fun it => relevance it q = s) result
             `prefix_of` filter (fun it => relevance it q = s) Sample.snapshot)
       /\ (forall self2 w2 self2' w2',
             load_items_cached self2 w2 = (Ok Sample.snapshot, self2', w2') ->
             search_items self2 query 2 w2 = (Ok result, self2', w2')).
Proof.
  cbv zeta. split; [reflexivity|]. split; [vm_compute; discriminate|].
  apply (search_items_stable
           (Sample.with_cache (Some Sample.snapshot) (Some (inject_Z 900)))
           (Sample.world_at 1000 Sample.down) Sample.snapshot _ _
           (lit " BAUstellen ") 2); [reflexivity | vm_compute; discriminate].
Defined.

Example search_best_first :
  search_in Sample.snapshot (lit " BAUstellen ") 10
  = [Sample.by_title; Sample.by_title_too; Sample.by_category;
     Sample.by_description].
Proof. vm_compute. reflexivity. Qed.

Example search_scores :
  (fun it => _score_item it (lit "baustellen")) <$> Sample.snapshot
  = [1; 0; 3; 2; 3].
Proof. vm_compute. reflexivity. Qed.

Example search_empty_query :
  search_in Sample.snapshot (lit "  ") 2
  = [Sample.by_description; Sample.unrelated].
Proof. vm_compute. reflexivity. Qed.

Example get_categories_sample :
  get_categories (Sample.with_cache (Some Sample.snapshot) None)
  = [lit "Baustellen"; lit "Kultur"; lit "Tierpark"].
Proof. vm_compute. reflexivity. Qed.

(** C3, the converse that fails: two entries without GUID, with different
    titles and different links, get the same id, because the bar that joins
    title and link may also occur inside either. *)
Lemma title_link_bar_collision :
  let w := Sample.world_at 1000 Sample.down in
  exists x y,
    (from_rss_item Sample.bar_in_link BASE_URL w).1 = Ok x
    /\ (from_rss_item Sample.bar_in_title BASE_URL w).1 = Ok y
    /\ raw_guid x = None /\ raw_guid y = None
    /\ id x = id y
    /\ strip (title x) <> strip (title y)
    /\ strip (link x) <> strip (link y).
Proof.
  cbv zeta. eexists _, _.
  split; [vm_compute; reflexivity|]. split; [vm_compute; reflexivity|].
  repeat split; vm_compute; discriminate.
Qed.

(** C3 at an entry without GUID. *)
Lemma item_id_derivation_witness :
  let w := Sample.world_at 1000 Sample.down in
  exists x,
    from_rss_item Sample.undated_item BASE_URL w = (Ok x, tick w)
    /\ id_rule Sample.undated_item x
    /\ forall e2 w2 y w2',
         from_rss_item e2 BASE_URL w2 = (Ok y, w2') ->
         usable_guid Sample.undated_item = None -> usable_guid e2 = None ->
         strip (title x) = strip (title y) ->
         strip (entry_link Sample.undated_item) = strip (entry_link e2) ->
         id x = id y.
Proof.
  cbv zeta. eexists. split; [reflexivity|].
  eapply (item_id_derivation Sample.undated_item
            (Sample.world_at 1000 Sample.down)).
  reflexivity.
Defined.

Example id_of_guid :
  id <$> ok_item (from_rss_item Sample.dated_item BASE_URL
                    (Sample.world_at 1000 Sample.down)).1
  = Some (lit "item-123").
Proof. vm_compute. reflexivity. Qed.

Example id_of_title_and_link :
  id <$> ok_item (from_rss_item Sample.undated_item BASE_URL
                    (Sample.world_at 1000 Sample.down)).1
  = Some (SHA1.hexdigest
            (Sample.utf8 ("Neue Kulturveranstaltungen|"
                          ++ "https://www.stadt-koeln.de/pressemeldungen/124"))).
Proof. vm_compute. reflexivity. Qed.



(** C7, the claim that fails: an entry without pubDate is stamped with the
    clock, so parsing the same bytes a second time, one clock reading later,
    gives another item sequence. *)
Lemma undated_item_changes_between_runs :
  let w := Sample.world_at 1000 Sample.down in
  let first_run := parse_items Sample.undated_feed w in
  let second_run := parse_items Sample.undated_feed first_run.2 in
  exists items1 items2,
    first_run.1 = Ok items1 /\ second_run.1 = Ok items2
    /\ published_at <$> items1 = [inject_Z 1000]
    /\ published_at <$> items2 = [inject_Z 1001]
    /\ items1 <> items2.
Proof.
  cbv zeta. eexists _, _.
  split; [vm_compute; reflexivity|]. split; [vm_compute; reflexivity|].
  repeat split; try reflexivity. discriminate.
Qed.

(** C7 at a feed with a dated entry, an entry with a time of day only and
    an entry without pubDate, parsed on two different days. *)
Lemma parse_items_twice_witness :
  let w1 := Sample.world_at 1000 Sample.down in
  let w2 := Sample.world_at 100000 Sample.down in
  exists items1 items2 w1' w2',
    parse_items Sample.mixed_feed w1 = (Ok items1, w1')
    /\ parse_items Sample.mixed_feed w2 = (Ok items2, w2')
    /\ Forall3 (fun ek x y =>
                  let e := ek.1 in
                  let date1 := entry_pubdate (reading w1 (S ek.2)) e in
                  let date2 := entry_pubdate (reading w2 (S ek.2)) e in
                  same_content x y
                  /\ published_at x
                     = match date1 with
                       | Some d => d
                       | None => reading w1 ek.2
                       end
                  /\ published_at y
                     = match date2 with
                       | Some d => d
                       | None => reading w2 ek.2
                       end
                  /\ (is_Some date1 -> date1 = date2 ->
                      published_at x = published_at y))
               (filter (fun ek => accepted ek.1)
                       (positions 0 (feed_entries Sample.mixed_feed)))
               items1 items2.
Proof.
  cbv zeta. eexists _, _, _, _.
  split; [reflexivity|]. split; [reflexivity|].
  eapply (parse_items_twice Sample.mixed_feed
            (Sample.world_at 1000 Sample.down)
            (Sample.world_at 100000 Sample.down)); reflexivity.
Defined.

(** The same two runs: the dated entry has one time stamp in both, the
    entry with a time of day gets that time on the day of each run, the
    entry without pubDate gets the clock of each run. *)
Example mixed_feed_time_stamps :
  let w1 := Sample.world_at 1000 Sample.down in
  let w2 := Sample.world_at 100000 Sample.down in
  published_at <$> default [] (ok_item (parse_items Sample.mixed_feed w1).1)
  = [inject_Z 1728981000; inject_Z 37800; inject_Z 1004]
  /\ published_at <$> default [] (ok_item (parse_items Sample.mixed_feed w2).1)
     = [inject_Z 1728981000; inject_Z 124200; inject_Z 100004]
  /\ clock_reads (parse_items Sample.mixed_feed w1).2 = 5%nat.
Proof. vm_compute. repeat split. Qed.

Example parse_items_all_entries_fail :
  let w := Sample.world_at 1000 Sample.down in
  individually w (feed_entries Sample.broken_feed) = [Raise ValidationError]
  /\ (parse_items Sample.broken_feed w).1 = Raise NoValidItems
  /\ (parse_items Sample.not_xml w).1 = Raise InvalidXML
  /\ (parse_items Sample.no_channel_feed w).1 = Raise MissingChannel.
Proof. vm_compute. repeat split. Qed.

(** ** More properties at concrete inputs *)

Example sanitize_string_sample :
  sanitize_string ([32; 97; 9; 7; 98; 32; 32; 99; 10; 0]%N) = lit "a b c".
Proof. vm_compute. reflexivity. Qed.

(** The control characters U+0080 and U+009F are not in the class of the
    regular expression: they stay. U+0085 is white space. *)
Example sanitize_string_keeps_c1 :
  sanitize_string ([97; 128; 98; 159]%N) = [97; 128; 98; 159]%N
  /\ sanitize_string ([97; 133; 98]%N) = lit "a b".
Proof. vm_compute. repeat split. Qed.

(** The round trip of the cache at an empty cache: stored at the clock
    reading 1000, read at 1001, with a time to live of 60. *)
Lemma ttlcache_set_then_get_witness :
  let self : TTLCache.t Z := TTLCache.init (Some 60) (Some 2) in
  let w := Sample.world_at 1000 Sample.down in
  exists c' w',
    TTLCache.set self (lit "a") 1 w = (TTLCache.Done, c', w')
    /\ let stamp := clock w (Nat.pred (clock_reads w')) in
       let now := clock w' (clock_reads w') in
       dict_get (lit "a") (TTLCache._cache c') = Some (1, stamp)
       /\ ((now - stamp < inject_Z (TTLCache.ttl self))%Q ->
           TTLCache.get c' (lit "a") w' = (Some 1, c', tick w'))
       /\ ((inject_Z (TTLCache.ttl self) <= now - stamp)%Q ->
           (TTLCache.get c' (lit "a") w').1.1 = None).
Proof.
  cbv zeta. eexists _, _. split; [reflexivity|].
  eapply (ttlcache_set_then_get (TTLCache.init (Some 60) (Some 2)) (lit "a") 1
            (Sample.world_at 1000 Sample.down)).
  reflexivity.
Defined.

Lemma ttlcache_get_sound_witness :
  let self := SampleMore.two_entries in
  let w := Sample.world_at 1000 Sample.down in
  NoDup (dict_keys (TTLCache._cache self))
  /\ let '(r, c', w') := TTLCache.get self (lit "a") w in
     match r with
     | Some v =>
         c' = self
         /\ exists ts, dict_get (lit "a") (TTLCache._cache self) = Some (v, ts)
                       /\ (clock w (clock_reads w) - ts
                           < inject_Z (TTLCache.ttl self))%Q
     | None =>
         dict_get (lit "a") (TTLCache._cache c') = None
         /\ forall k', k' <> lit "a" ->
              dict_get k' (TTLCache._cache c')
              = dict_get k' (TTLCache._cache self)
     end.
Proof.
  cbv zeta.
  assert (Hnd : NoDup (dict_keys (TTLCache._cache SampleMore.two_entries))).
  { apply (bool_decide_unpack _). vm_compute. exact I. }
  split; [exact Hnd|].
  exact (ttlcache_get_sound SampleMore.two_entries (lit "a")
           (Sample.world_at 1000 Sample.down) Hnd).
Defined.

Lemma ttlcache_set_keeps_capacity_witness :
  let self := SampleMore.two_entries in
  let w := Sample.world_at 1000 Sample.down in
  (1 <= TTLCache.max_size self
   /\ NoDup (dict_keys (TTLCache._cache self))
   /\ Z.of_nat (TTLCache.size self) <= TTLCache.max_size self)
  /\ exists c' w',
       TTLCache.set self (lit "c") 3 w = (TTLCache.Done, c', w')
       /\ NoDup (dict_keys (TTLCache._cache c'))
       /\ Z.of_nat (TTLCache.size c') <= TTLCache.max_size self
       /\ TTLCache.ttl c' = TTLCache.ttl self
       /\ TTLCache.max_size c' = TTLCache.max_size self.
Proof.
  cbv zeta.
  assert (Hmax : 1 <= TTLCache.max_size SampleMore.two_entries)
    by (vm_compute; discriminate).
  assert (Hnd : NoDup (dict_keys (TTLCache._cache SampleMore.two_entries))).
  { apply (bool_decide_unpack _). vm_compute. exact I. }
  assert (Hsize : Z.of_nat (TTLCache.size SampleMore.two_entries)
                  <= TTLCache.max_size SampleMore.two_entries)
    by (vm_compute; discriminate).
  split; [by repeat split|].
  exact (ttlcache_set_keeps_capacity SampleMore.two_entries (lit "c") 3
           (Sample.world_at 1000 Sample.down) Hmax Hnd Hsize).
Defined.

Lemma ttlcache_set_without_room_witness :
  let self : TTLCache.t Z := TTLCache.init (Some 60) (Some 0) in
  let w := Sample.world_at 1000 Sample.down in
  (TTLCache.max_size self <= 0 /\ TTLCache._cache self = [])
  /\ TTLCache.set self (lit "a") 1 w = (TTLCache.ValueError, self, tick w).
Proof.
  cbv zeta. split; [split; [vm_compute; discriminate | reflexivity]|].
  apply (ttlcache_set_without_room (TTLCache.init (Some 60) (Some 0))
           (lit "a") 1 (Sample.world_at 1000 Sample.down));
    [vm_compute; discriminate | reflexivity].
Defined.

(** The full sample cache at the clock reading 1000: nothing is expired,
    the entry stamped 980 goes. *)
Lemma ttlcache_set_evicts_oldest_witness :
  let self := SampleMore.two_entries in
  let w := Sample.world_at 1000 Sample.down in
  exists before old after,
    TTLCache._cache self = before ++ old :: after
    /\ Forall (fun e => (old.2.2 < e.2.2)%Q) before
    /\ Forall (fun e => (old.2.2 <= e.2.2)%Q) after
    /\ TTLCache.set self (lit "c") 3 w
       = (TTLCache.Done,
          TTLCache.with_entries self
            (dict_del old.1 (TTLCache._cache self)
             ++ [(lit "c", (3, clock w (S (clock_reads w))))]),
          tick (tick w))
    /\ (NoDup (dict_keys (TTLCache._cache self)) ->
        dict_del old.1 (TTLCache._cache self) = before ++ after).
Proof.
  cbv zeta.
  apply (ttlcache_set_evicts_oldest SampleMore.two_entries (lit "c") 3
           (Sample.world_at 1000 Sample.down)).
  - discriminate.
  - reflexivity.
  - repeat constructor.
  - apply (bool_decide_unpack _). vm_compute. exact I.
Defined.

Example ttlcache_evicts_b :
  dict_keys
    (TTLCache._cache
       (TTLCache.set SampleMore.two_entries (lit "c") 3
          (Sample.world_at 1000 Sample.down)).1.2)
  = [lit "a"; lit "c"].
Proof. vm_compute. reflexivity. Qed.

(** Three entries of which the last two share the earliest stamp: the
    earlier of the two goes. *)
Example ttlcache_evicts_first_of_equals :
  dict_keys
    (TTLCache._cache
       (TTLCache.set
          (TTLCache.mk 60 3
             [(lit "a", (1, inject_Z 990)); (lit "b", (2, inject_Z 980));
              (lit "c", (3, inject_Z 980))])
          (lit "d") 4 (Sample.world_at 1000 Sample.down)).1.2)
  = [lit "a"; lit "c"; lit "d"].
Proof. vm_compute. reflexivity. Qed.

Lemma retry_on_failure_no_attempts_witness :
  let w := Sample.world_at 1000 SampleMore.up in
  0 <= 0
  /\ retry_on_failure 0 1 2 transport_errors http_get w = (Ok None, w).
Proof.
  cbv zeta. split; [lia|].
  apply (retry_on_failure_no_attempts 0 1 2 transport_errors http_get
           (Sample.world_at 1000 SampleMore.up)).
  lia.
Defined.

(** Two failures, then an answer, with a delay of half a second and a
    factor of three: three GETs, and sleeps of 1/2 and 3/2 seconds. *)
Lemma retry_on_failure_recovers_witness :
  let w := Sample.world_at 1000 SampleMore.flaky_twice in
  let delay := (1 # 2)%Q in
  exact_waits delay 3 2 = true
  /\ retry_on_failure 5 delay 3 transport_errors http_get w
     = (Ok (Some Sample.dated_feed),
        after_requests 3
          ((fun j => (delay * 3 ^ Z.of_nat j)%Q) <$> seq 0 2) w).
Proof.
  cbv zeta. split; [vm_compute; reflexivity|].
  apply (retry_on_failure_recovers 5 (1 # 2) 3 (fun _ => RequestError "down")
           Sample.dated_feed 2
           (Sample.world_at 1000 SampleMore.flaky_twice)).
  - lia.
  - vm_compute. reflexivity.
  - intros j Hj.
    assert (j = 0%nat \/ j = 1%nat) as [-> | ->] by lia; split; reflexivity.
  - reflexivity.
Defined.

(** The binary64 numbers: 1/2, 3/2 and 2^53 are, 1/10, 2^53 + 1 and 10^400
    are not. *)
Example binary64_sample :
  binary64 <$> [(1 # 2)%Q; (3 # 2)%Q; inject_Z (2 ^ 53); (1 # 10)%Q;
                inject_Z (2 ^ 53 + 1); inject_Z (10 ^ 400)]
  = [true; true; true; false; false; false].
Proof. vm_compute. reflexivity. Qed.

(** A tenth is no binary64 number, and the float written 0.1 times 3 is
    none either: the code sleeps a rounded product there. *)
Example exact_waits_sample :
  exact_waits (1 # 10) 3 2 = false
  /\ exact_waits (3602879701896397 # 36028797018963968) 3 2 = false
  /\ exact_waits 1 2 2 = true.
Proof. vm_compute. repeat split. Qed.

(** The parsed items of the dated sample entry and of an entry whose title
    is three spaces. *)
Lemma from_rss_item_trimmed_witness :
  let w := Sample.world_at 1000 Sample.down in
  exists x,
    from_rss_item Sample.dated_item BASE_URL w = (Ok x, tick (tick w))
    /\ trimmed (title x)
    /\ Forall (fun c => c <> [] /\ trimmed c) (categories x)
    /\ (forall g, raw_guid x = Some g -> trimmed g)
    /\ source x = lit "rss:stadt-koeln".
Proof.
  cbv zeta. eexists. split; [reflexivity|].
  eapply (from_rss_item_trimmed Sample.dated_item
            (Sample.world_at 1000 Sample.down)).
  reflexivity.
Defined.

Lemma from_rss_item_id_shape_witness :
  let w := Sample.world_at 1000 Sample.down in
  exists x,
    from_rss_item Sample.undated_item BASE_URL w = (Ok x, tick w)
    /\ id x <> []
    /\ match usable_guid Sample.undated_item with
       | Some g => id x = g /\ raw_guid x = Some g
       | None =>
           length (id x) = 40%nat
           /\ Forall (fun c => is_hex_digit c = true) (id x)
       end.
Proof.
  cbv zeta. eexists. split; [reflexivity|].
  eapply (from_rss_item_id_shape Sample.undated_item
            (Sample.world_at 1000 Sample.down)).
  reflexivity.
Defined.

Lemma from_rss_item_title_witness :
  let w := Sample.world_at 1000 Sample.down in
  exists x,
    from_rss_item SampleMore.blank_title_item BASE_URL w = (Ok x, tick w)
    /\ (title x = [] <->
        exists t,
          text_of (find SampleMore.blank_title_item (lit "title")) = Some t
          /\ Forall (fun c => is_space c = true) t)
    /\ (text_of (find SampleMore.blank_title_item (lit "title")) = None ->
        title x = lit "Unbekannter Titel").
Proof.
  cbv zeta. eexists. split; [reflexivity|].
  eapply (from_rss_item_title SampleMore.blank_title_item
            (Sample.world_at 1000 Sample.down)).
  reflexivity.
Defined.

Example blank_title_is_empty :
  title <$> ok_item (from_rss_item SampleMore.blank_title_item BASE_URL
                       (Sample.world_at 1000 Sample.down)).1
  = Some [].
Proof. vm_compute. reflexivity. Qed.

(** A client without snapshot and a network whose first GET fails: the
    refresh needs two GETs and installs the parsed feed. *)
Lemma load_items_cached_refreshes_witness :
  let self := Sample.with_cache None None in
  let w := Sample.world_at 1000 SampleMore.flaky in
  exists items w2,
    (cache_valid self (clock w (clock_reads w)) = None
     /\ fetch_and_parse self (tick w) = (Ok items, w2))
    /\ let stamp := clock w (clock_reads w) in
       let self' := set_cache self (Some items) (Some stamp) in
       load_items_cached self w = (Ok items, self', w2)
       /\ items <> []
       /\ forall w3,
            (clock w3 (clock_reads w3) - stamp
             < inject_Z (cache_ttl self))%Q ->
            load_items_cached self' w3 = (Ok items, self', tick w3).
Proof.
  cbv zeta. eexists _, _. split; [split; reflexivity|].
  eapply (load_items_cached_refreshes (Sample.with_cache None None)
            (Sample.world_at 1000 SampleMore.flaky)); reflexivity.
Defined.

Lemma load_items_cached_stale_cost_witness :
  let self := Sample.with_cache (Some Sample.snapshot) (Some 0%Q) in
  let w := Sample.world_at 1000 Sample.down in
  load_items_cached self w
  = (Ok Sample.snapshot, self, after_requests 3 [1; 2]%Q (tick w)).
Proof.
  cbv zeta.
  apply (load_items_cached_stale_cost
           (Sample.with_cache (Some Sample.snapshot) (Some 0%Q))
           (Sample.world_at 1000 Sample.down) Sample.snapshot
           (fun _ => RequestError "down")).
  - reflexivity.
  - reflexivity.
  - intros j _. split; reflexivity.
Defined.

Lemma search_in_bounds_witness :
  let query := lit " BAUstellen " in
  0 <= 2
  /\ let q := strip (str_lower query) in
     let r := search_in Sample.snapshot query 2 in
     (length r <= Z.to_nat 2)%nat
     /\ (length r <= length Sample.snapshot)%nat
     /\ forall x, x ∈ r ->
          x ∈ Sample.snapshot /\ (q <> [] -> 0 < _score_item x q).
Proof.
  cbv zeta. split; [lia|].
  apply (search_in_bounds Sample.snapshot (lit " BAUstellen ") 2). lia.
Defined.


Example server_get_item_miss :
  (Server.get_item SampleMore.isoformat
     (Sample.with_cache (Some Sample.snapshot) (Some (inject_Z 900)))
     (lit "nonexistent") (Sample.world_at 1000 Sample.down)).1.1.1
  = HTTPException 404 (ItemNotFound (lit "nonexistent")).
Proof. vm_compute. reflexivity. Qed.
